(** * Dominator views over a precomputed dominance relation

    A shallow embedding of [dominator_plugin.py]: the flow-graph views
    ([*Slice.get_flowgraph]) and the Mermaid text exports
    ([generate_*_mermaid]), together with the properties of the traversal
    layer.

    The dominance relation itself is computed by the host analysis engine;
    here it is a record of accessors over an opaque block type.  Loops and
    recursive closures of the source that are not structurally recursive
    carry a [fuel] argument: [None] means "not finished within [fuel]
    iterations (or call depth)".  Limits of the interpreter (recursion
    depth, memory) are not part of the model. *)

From Stdlib Require Import Ascii HexString.
From stdpp Require Import gmap strings list.

Set Default Proof Using "Type".

(** * The engine's accessors *)

(** What a basic block exposes to the plugin.  [block] is the block's
    identity (the key Python's [==] and [hash] work on). *)
Record Analysis (block : Type) := {
  start : block → N;
  immediate_dominator : block → option block;
  dominator_tree_children : block → list block;
  dominance_frontier : block → list block;
  immediate_post_dominator : block → option block;
  post_dominator_tree_children : block → list block;
  post_dominance_frontier : block → list block;
  outgoing_edges : block → list block;
}.
Arguments start {block}.
Arguments immediate_dominator {block}.
Arguments dominator_tree_children {block}.
Arguments dominance_frontier {block}.
Arguments immediate_post_dominator {block}.
Arguments post_dominator_tree_children {block}.
Arguments post_dominance_frontier {block}.
Arguments outgoing_edges {block}.

(** A function is its ordered sequence of blocks. *)
Record Function (block : Type) := { basic_blocks : list block }.
Arguments basic_blocks {block}.

(** * Flow graphs *)

Inductive BranchType := UnconditionalBranch.

(** The text of a node: a block's disassembly (rendered by the host) or a
    literal line. *)
Inductive Lines (block : Type) :=
  | Disassembly (b : block)
  | DisassemblyTextLine (s : string).
Arguments Disassembly {block}.
Arguments DisassemblyTextLine {block}.

Record FlowGraphNode (block : Type) := {
  lines : Lines block;
  outgoing : list (BranchType * nat);
}.
Arguments lines {block}.
Arguments outgoing {block}.

(** A flow graph is the list of its nodes in the order of [append]; a node
    is referred to by its position. *)
Abbreviation FlowGraph block := (list (FlowGraphNode block)).

Section FlowGraphs.
Context {block : Type}.

Definition with_lines (l : Lines block) (n : FlowGraphNode block) :=
  {| lines := l; outgoing := outgoing n |}.

Definition with_edge (e : BranchType * nat) (n : FlowGraphNode block) :=
  {| lines := lines n; outgoing := outgoing n ++ [e] |}.

(** [node.lines = l] *)
Definition set_lines (flowgraph : FlowGraph block) (node : nat) (l : Lines block) :=
  alter (with_lines l) node flowgraph.

(** [node.add_outgoing_edge(kind, target)] *)
Definition add_outgoing_edge (flowgraph : FlowGraph block)
    (node : nat) (kind : BranchType) (target : nat) :=
  alter (with_edge (kind, target)) node flowgraph.

(** [DominanceSliceBase.get_block_node] *)
Definition get_block_node (flowgraph : FlowGraph block) (b : option block)
    : FlowGraph block * nat :=
  let node :=
    {| lines := match b with
                | Some b => Disassembly b
                | None => DisassemblyTextLine "No block found"
                end;
       outgoing := [] |} in
  (flowgraph ++ [node], length flowgraph).

(** The edges leaving the nodes of [flowgraph], the first of which has
    position [k], as (source, target) pairs. *)
Fixpoint edges_from (k : nat) (flowgraph : FlowGraph block) : list (nat * nat) :=
  match flowgraph with
  | [] => []
  | n :: flowgraph => ((λ e, (k, e.2)) <$> outgoing n) ++ edges_from (S k) flowgraph
  end.

(** All edges of a graph, by source node. *)
Definition graph_edges (flowgraph : FlowGraph block) : list (nat * nat) :=
  edges_from 0 flowgraph.

(** The block a node shows, if it shows one. *)
Definition node_block (n : FlowGraphNode block) : option block :=
  match lines n with Disassembly b => Some b | DisassemblyTextLine _ => None end.

(** The blocks shown by a graph, one entry per node showing a block. *)
Definition graph_blocks (flowgraph : FlowGraph block) : list block :=
  omap node_block flowgraph.
End FlowGraphs.

(** * The views *)

Section Views.
Context {block : Type} `{Countable block}.
Variable cfg : Analysis block.

(** ** Chain walks *)

(** The [while next_block is not None] loop of [DominatorsSlice]. *)
Fixpoint DominatorsSlice_walk (fuel : nat) (flowgraph : FlowGraph block)
    (current_node : nat) (next_block : option block) : option (FlowGraph block) :=
  match next_block with
  | None => Some flowgraph
  | Some nb =>
    match fuel with
    | 0 => None
    | S fuel =>
      let '(flowgraph, next_node) := get_block_node flowgraph (Some nb) in
      let flowgraph :=
        add_outgoing_edge flowgraph next_node UnconditionalBranch current_node in
      DominatorsSlice_walk fuel flowgraph next_node (immediate_dominator cfg nb)
    end
  end.

Definition DominatorsSlice_get_flowgraph (fuel : nat) (current_block : option block)
    : option (FlowGraph block) :=
  match current_block with
  | None => Some []
  | Some cb =>
    let '(flowgraph, current_node) := get_block_node [] (Some cb) in
    DominatorsSlice_walk fuel flowgraph current_node (immediate_dominator cfg cb)
  end.

(** The loop of [PostDominatorsSlice]: the edge leaves the previous node. *)
Fixpoint PostDominatorsSlice_walk (fuel : nat) (flowgraph : FlowGraph block)
    (current_node : nat) (next_block : option block) : option (FlowGraph block) :=
  match next_block with
  | None => Some flowgraph
  | Some nb =>
    match fuel with
    | 0 => None
    | S fuel =>
      let '(flowgraph, next_node) := get_block_node flowgraph (Some nb) in
      let flowgraph :=
        add_outgoing_edge flowgraph current_node UnconditionalBranch next_node in
      PostDominatorsSlice_walk fuel flowgraph next_node (immediate_post_dominator cfg nb)
    end
  end.

Definition PostDominatorsSlice_get_flowgraph (fuel : nat) (current_block : option block)
    : option (FlowGraph block) :=
  match current_block with
  | None => Some []
  | Some cb =>
    let '(flowgraph, current_node) := get_block_node [] (Some cb) in
    PostDominatorsSlice_walk fuel flowgraph current_node (immediate_post_dominator cfg cb)
  end.

(** [StrictDominatorsSlice]: the walk is the one of [DominatorsSlice],
    started one step up. *)
Definition StrictDominatorsSlice_get_flowgraph (fuel : nat) (current_block : option block)
    : option (FlowGraph block) :=
  match current_block with
  | None => Some []
  | Some cb =>
    match immediate_dominator cfg cb with
    | None =>
      let '(flowgraph, node) := get_block_node [] None in
      Some (set_lines flowgraph node (DisassemblyTextLine "No strict dominators"))
    | Some nb =>
      let '(flowgraph, current_node) := get_block_node [] (Some nb) in
      DominatorsSlice_walk fuel flowgraph current_node (immediate_dominator cfg nb)
    end
  end.

(** ** One-hop views *)

Definition ImmediateDominatorSlice_get_flowgraph (current_block : option block)
    : FlowGraph block :=
  match current_block with
  | None => []
  | Some cb =>
    let '(flowgraph, current_node) := get_block_node [] (Some cb) in
    match immediate_dominator cfg cb with
    | Some d =>
      let '(flowgraph, dom_node) := get_block_node flowgraph (Some d) in
      add_outgoing_edge flowgraph dom_node UnconditionalBranch current_node
    | None => flowgraph
    end
  end.

Definition ImmediatePostDominatorSlice_get_flowgraph (current_block : option block)
    : FlowGraph block :=
  match current_block with
  | None => []
  | Some cb =>
    let '(flowgraph, current_node) := get_block_node [] (Some cb) in
    match immediate_post_dominator cfg cb with
    | Some d =>
      let '(flowgraph, dom_node) := get_block_node flowgraph (Some d) in
      add_outgoing_edge flowgraph current_node UnconditionalBranch dom_node
    | None => flowgraph
    end
  end.

(** ** Full trees *)

(** The [for child in ...] loop inside the closure [add_children], with
    the recursive call as [recurse]. *)
Fixpoint for_each_child (recurse : FlowGraph block → block → nat → option (FlowGraph block))
    (parent_node : nat) (cs : list block) (flowgraph : FlowGraph block)
    : option (FlowGraph block) :=
  match cs with
  | [] => Some flowgraph
  | child :: cs =>
    let '(flowgraph, child_node) := get_block_node flowgraph (Some child) in
    let flowgraph :=
      add_outgoing_edge flowgraph parent_node UnconditionalBranch child_node in
    match recurse flowgraph child child_node with
    | None => None
    | Some flowgraph => for_each_child recurse parent_node cs flowgraph
    end
  end.

(** The recursive closure [add_children] of [FullDominatorTreeSlice] and
    of [FullPostDominatorTreeSlice]; the two differ only in the accessor
    they iterate, passed here as [children].  [fuel] bounds the depth of
    the calls. *)
Fixpoint add_children (children : block → list block) (fuel : nat)
    (flowgraph : FlowGraph block) (b : block) (parent_node : nat)
    : option (FlowGraph block) :=
  match fuel with
  | 0 => None
  | S fuel =>
    for_each_child (add_children children fuel) parent_node (children b) flowgraph
  end.

Definition FullPostDominatorTreeSlice_get_flowgraph (fuel : nat)
    (function : option (Function block)) : option (FlowGraph block) :=
  match function with
  | None => Some []
  | Some function =>
    let exit_blocks :=
      filter (λ b, outgoing_edges cfg b = []) (basic_blocks function) in
    match exit_blocks with
    | [] => Some []
    | root_block :: _ =>
      let '(flowgraph, root_node) := get_block_node [] (Some root_block) in
      add_children (post_dominator_tree_children cfg) fuel flowgraph root_block root_node
    end
  end.

Definition FullDominatorTreeSlice_get_flowgraph (fuel : nat)
    (function : option (Function block)) : option (FlowGraph block) :=
  match function with
  | None => Some []
  | Some function =>
    match basic_blocks function with
    | [] => Some []
    | root_block :: _ =>
      let '(flowgraph, root_node) := get_block_node [] (Some root_block) in
      add_children (dominator_tree_children cfg) fuel flowgraph root_block root_node
    end
  end.

(** ** Iterated dominance frontier *)

(** The body of [for df_block in block.dominance_frontier], on the pair
    of the [frontier] set and the [worklist]. *)
Definition idf_visit (st : gset block * list block) (df_block : block)
    : gset block * list block :=
  if decide (df_block ∈ st.1) then st
  else ({[df_block]} ∪ st.1, st.2 ++ [df_block]).

(** [while worklist: block = worklist.pop(0); ...], the loop shared by
    [IteratedDominanceFrontierSlice.get_flowgraph] and
    [generate_iterated_dominance_frontier_mermaid]. *)
Fixpoint idf_worklist (fuel : nat) (frontier : gset block) (worklist : list block)
    : option (gset block) :=
  match worklist with
  | [] => Some frontier
  | b :: worklist =>
    match fuel with
    | 0 => None
    | S fuel =>
      let st := foldl idf_visit (frontier, worklist) (dominance_frontier cfg b) in
      idf_worklist fuel st.1 st.2
    end
  end.

(** The order in which Python iterates over a set is not specified; it
    is a parameter of the model. *)
Variable set_iter : gset block → list block.

Definition IteratedDominanceFrontierSlice_get_flowgraph (fuel : nat)
    (current_block : option block) : option (FlowGraph block) :=
  match current_block with
  | None => Some []
  | Some cb =>
    let '(flowgraph, node) := get_block_node [] (Some cb) in
    let blocks : gset block := {[cb]} in
    match idf_worklist fuel ∅ (set_iter blocks) with
    | None => None
    | Some frontier =>
      Some (foldl (λ flowgraph frontier_block,
                     let '(flowgraph, frontier_node) :=
                       get_block_node flowgraph (Some frontier_block) in
                     add_outgoing_edge flowgraph node UnconditionalBranch frontier_node)
                  flowgraph (set_iter frontier))
    end
  end.

(** ** Children and frontier views *)

(** [PostDominatorTreeChildrenSlice], [PostDominanceFrontierSlice],
    [DominanceFrontierSlice] and [DominatorTreeChildrenSlice] have the same
    body, up to the accessor iterated, passed here as [members]. *)
Definition one_hop_view (members : block → list block) (current_block : option block)
    : FlowGraph block :=
  match current_block with
  | None => []
  | Some cb =>
    let '(flowgraph, node) := get_block_node [] (Some cb) in
    foldl (λ flowgraph child,
             let '(flowgraph, child_node) := get_block_node flowgraph (Some child) in
             add_outgoing_edge flowgraph node UnconditionalBranch child_node)
          flowgraph (members cb)
  end.

Definition PostDominatorTreeChildrenSlice_get_flowgraph :=
  one_hop_view (post_dominator_tree_children cfg).

Definition PostDominanceFrontierSlice_get_flowgraph :=
  one_hop_view (post_dominance_frontier cfg).

Definition DominanceFrontierSlice_get_flowgraph :=
  one_hop_view (dominance_frontier cfg).

Definition DominatorTreeChildrenSlice_get_flowgraph :=
  one_hop_view (dominator_tree_children cfg).

End Views.

(** * Mermaid text exports *)

Section Mermaid.
Context {block : Type} `{Countable block}.
Variable cfg : Analysis block.
(** [bv.get_function_at] *)
Variable get_function_at : N → option (Function block).
Variable set_iter : gset block → list block.

(** The line feed of the source's ["\n"]. *)
Definition nl : string := String "010"%char "".

(** Python's [hex] on a non-negative integer. *)
Definition hex (n : N) : string := HexString.of_N n.

Definition BB (bb : block) : string := "BB" +:+ hex (start cfg bb).

(** [f"BB{hex(bb.start)}(({hex(bb.start)}))\n"] *)
Definition node_decl (bb : block) : string :=
  BB bb +:+ "((" +:+ hex (start cfg bb) +:+ "))" +:+ nl.

Definition no_function (function_address : N) : string :=
  "No function found at address " +:+ hex function_address.

(** ["```mermaid\n" + mermaid_syntax + "\n```"] *)
Definition fenced (mermaid_syntax : string) : string :=
  "```mermaid" +:+ nl +:+ mermaid_syntax +:+ nl +:+ "```".

Definition header : string := "graph TD;" +:+ nl.

(** The first loop of the frontier and immediate-dominator exports. *)
Definition add_all_blocks (mermaid_syntax : string) (func : Function block) : string :=
  foldl (λ acc bb, acc +:+ node_decl bb) mermaid_syntax (basic_blocks func).

(** The single loop of the two tree exports, over [children]. *)
Definition tree_statements (children : block → list block)
    (mermaid_syntax : string) (func : Function block) : string :=
  foldl (λ acc bb,
           foldl (λ acc frontier, acc +:+ BB bb +:+ " --> " +:+ BB frontier +:+ nl)
                 (acc +:+ node_decl bb) (children bb))
        mermaid_syntax (basic_blocks func).

Definition generate_post_dominator_mermaid (function_address : N) : string :=
  let func := get_function_at function_address in
  let mermaid_syntax := header in
  let mermaid_syntax :=
    match func with
    | Some func => tree_statements (post_dominator_tree_children cfg) mermaid_syntax func
    | None => no_function function_address
    end in
  fenced mermaid_syntax.

Definition generate_dominator_mermaid (function_address : N) : string :=
  let func := get_function_at function_address in
  let mermaid_syntax := header in
  let mermaid_syntax :=
    match func with
    | Some func => tree_statements (dominator_tree_children cfg) mermaid_syntax func
    | None => no_function function_address
    end in
  fenced mermaid_syntax.

(** The second loop of the two frontier exports, with the edge [label]. *)
Definition frontier_statements (members : block → list block) (label : string)
    (mermaid_syntax : string) (func : Function block) : string :=
  foldl (λ acc bb,
           foldl (λ acc frontier,
                    acc +:+ BB bb +:+ " -->|" +:+ label +:+ "| " +:+ BB frontier +:+ nl)
                 acc (members bb))
        mermaid_syntax (basic_blocks func).

Definition generate_dominance_frontier_mermaid (function_address : N) : string :=
  let func := get_function_at function_address in
  let mermaid_syntax := header in
  let mermaid_syntax :=
    match func with
    | Some func =>
      let mermaid_syntax := add_all_blocks mermaid_syntax func in
      frontier_statements (dominance_frontier cfg) "frontier" mermaid_syntax func
    | None => no_function function_address
    end in
  fenced mermaid_syntax.

Definition generate_post_dominance_frontier_mermaid (function_address : N) : string :=
  let func := get_function_at function_address in
  let mermaid_syntax := header in
  let mermaid_syntax :=
    match func with
    | Some func =>
      let mermaid_syntax := add_all_blocks mermaid_syntax func in
      frontier_statements (post_dominance_frontier cfg) "post frontier" mermaid_syntax func
    | None => no_function function_address
    end in
  fenced mermaid_syntax.

(** [for bb in func.basic_blocks: if bb.start == addr: blocks.add(bb); break] *)
Fixpoint add_block_at (addr : N) (bbs : list block) (blocks : gset block) : gset block :=
  match bbs with
  | [] => blocks
  | bb :: bbs =>
    if decide (start cfg bb = addr) then {[bb]} ∪ blocks
    else add_block_at addr bbs blocks
  end.

Definition style_seed (b : block) : string :=
  "style " +:+ BB b +:+ " fill:#afa,stroke:#6a6" +:+ nl.

Definition style_frontier (b : block) : string :=
  "style " +:+ BB b +:+ " fill:#faa,stroke:#a66" +:+ nl.

(** The iterated-frontier export; [None] when the worklist loop has not
    finished within [fuel] iterations. *)
Definition generate_iterated_dominance_frontier_mermaid (fuel : nat)
    (function_address : N) (variable_blocks : option (list N)) : option string :=
  let func := get_function_at function_address in
  let mermaid_syntax := header in
  match func with
  | Some func =>
    let mermaid_syntax := add_all_blocks mermaid_syntax func in
    let variable_blocks :=
      match variable_blocks, basic_blocks func with
      | None, b0 :: _ => Some [start cfg b0]
      | _, _ => variable_blocks
      end in
    match variable_blocks with
    | Some ((_ :: _) as variable_blocks) =>
      let blocks :=
        foldl (λ blocks addr, add_block_at addr (basic_blocks func) blocks)
              ∅ variable_blocks in
      match idf_worklist cfg fuel ∅ (set_iter blocks) with
      | None => None
      | Some frontier =>
        let mermaid_syntax :=
          foldl (λ acc b, acc +:+ style_seed b) mermaid_syntax (set_iter blocks) in
        let mermaid_syntax :=
          foldl (λ acc b,
                   foldl (λ acc frontier_block,
                            acc +:+ BB b +:+ " -->|IDF| " +:+ BB frontier_block +:+ nl
                                +:+ style_frontier frontier_block)
                         acc (set_iter frontier))
                mermaid_syntax (set_iter blocks) in
        Some (fenced mermaid_syntax)
      end
    | _ => Some (fenced mermaid_syntax)
    end
  | None => Some (fenced (no_function function_address))
  end.

(** One round of the second loop of [generate_immediate_dominator_mermaid]. *)
Definition idom_statement (mermaid_syntax : string) (bb : block) : string :=
  match immediate_dominator cfg bb with
  | Some d =>
    if decide (d ≠ bb)
    then mermaid_syntax +:+ BB d +:+ " -->|idom| " +:+ BB bb +:+ nl
    else mermaid_syntax
  | None => mermaid_syntax
  end.

Definition generate_immediate_dominator_mermaid (function_address : N) : string :=
  let func := get_function_at function_address in
  let mermaid_syntax := header in
  let mermaid_syntax :=
    match func with
    | Some func =>
      let mermaid_syntax := add_all_blocks mermaid_syntax func in
      foldl idom_statement mermaid_syntax (basic_blocks func)
    | None => no_function function_address
    end in
  fenced mermaid_syntax.

(** One round of the second loop of
    [generate_immediate_post_dominator_mermaid]. *)
Definition ipdom_statement (mermaid_syntax : string) (bb : block) : string :=
  match immediate_post_dominator cfg bb with
  | Some d =>
    if decide (d ≠ bb)
    then mermaid_syntax +:+ BB bb +:+ " -->|ipdom| " +:+ BB d +:+ nl
    else mermaid_syntax
  | None => mermaid_syntax
  end.

Definition generate_immediate_post_dominator_mermaid (function_address : N) : string :=
  let func := get_function_at function_address in
  let mermaid_syntax := header in
  let mermaid_syntax :=
    match func with
    | Some func =>
      let mermaid_syntax := add_all_blocks mermaid_syntax func in
      foldl ipdom_statement mermaid_syntax (basic_blocks func)
    | None => no_function function_address
    end in
  fenced mermaid_syntax.
End Mermaid.

(** * Notions used to state the properties *)

Section Relations.
Context {block : Type} `{Countable block}.

(** [chain next b l]: following [next] from [b] meets exactly the blocks
    of [l], in this order, and then [None]. *)
Inductive chain (next : block → option block) : block → list block → Prop :=
  | chain_end b : next b = None → chain next b []
  | chain_step b a l : next b = Some a → chain next a l → chain next b (a :: l).

(** The block [k] steps of [next] away from [b]. *)
Fixpoint follow (next : block → option block) (k : nat) (b : block) : option block :=
  match k with
  | 0 => Some b
  | S k => next b ≫= follow next k
  end.

(** Following [next] from [b] comes back to a block already met. *)
Definition revisits (next : block → option block) (b : block) : Prop :=
  ∃ i j c, i < j ∧ follow next i b = Some c ∧ follow next j b = Some c.

(** The nodes the dominator walk appends for the ancestors [l]: the
    first at position [n] with an edge to [current_node], each later one
    with an edge to the node before it. *)
Fixpoint dominator_chain_nodes (current_node n : nat) (l : list block)
    : FlowGraph block :=
  match l with
  | [] => []
  | a :: l =>
    {| lines := Disassembly a; outgoing := [(UnconditionalBranch, current_node)] |}
      :: dominator_chain_nodes n (S n) l
  end.

(** [c] is listed among the children of [p]. *)
Definition child_of (children : block → list block) (p c : block) : Prop :=
  c ∈ children p.

(** [x] is [a] or a descendant of [a]. *)
Definition reachable (children : block → list block) (a x : block) : Prop :=
  rtc (child_of children) a x.

(** [b] has a descendant that is its own descendant. *)
Definition reaches_cycle (children : block → list block) (b : block) : Prop :=
  ∃ c, rtc (child_of children) b c ∧ tc (child_of children) c c.

(** A tree of [children] over the blocks [blocks]: children stay among
    [blocks], and no block is its own descendant. *)
Record finite_tree (children : block → list block) (blocks : list block) : Prop := {
  tree_closed : ∀ p c, p ∈ blocks → c ∈ children p → c ∈ blocks;
  tree_acyclic : ∀ b, ¬ tc (child_of children) b b;
}.

(** A well-formed forest: a finite tree in which a block is the child of
    its immediate dominator only, and is listed once. *)
Record well_formed_forest (children : block → list block)
    (idom : block → option block) (blocks : list block) : Prop := {
  forest_tree : finite_tree children blocks;
  forest_parent : ∀ p c, c ∈ children p → idom c = Some p;
  forest_once : ∀ p, NoDup (children p);
}.

(** All dominance-frontier members are blocks of [blocks]. *)
Definition frontier_closed (cfg : Analysis block) (blocks : list block) : Prop :=
  ∀ b x, x ∈ dominance_frontier cfg b → x ∈ blocks.

(** [idf_worklist], also recording the blocks popped, in order.  A block
    is popped once per entry into the worklist. *)
Fixpoint idf_worklist_pops (cfg : Analysis block) (fuel : nat)
    (frontier : gset block) (worklist : list block) : option (gset block * list block) :=
  match worklist with
  | [] => Some (frontier, [])
  | b :: worklist =>
    match fuel with
    | 0 => None
    | S fuel =>
      let st := foldl idf_visit (frontier, worklist) (dominance_frontier cfg b) in
      prod_map id (cons b) <$> idf_worklist_pops cfg fuel st.1 st.2
    end
  end.

(** The edge statements of the immediate-dominator export, as pairs
    (dominator, block). *)
Definition idom_edges (cfg : Analysis block) (func : Function block)
    : list (block * block) :=
  omap (λ bb, d ← immediate_dominator cfg bb;
              if decide (d ≠ bb) then Some (d, bb) else None)
       (basic_blocks func).

(** The edge statements of the immediate-post-dominator export, as pairs
    (block, post-dominator). *)
Definition ipdom_edges (cfg : Analysis block) (func : Function block)
    : list (block * block) :=
  omap (λ bb, d ← immediate_post_dominator cfg bb;
              if decide (d ≠ bb) then Some (bb, d) else None)
       (basic_blocks func).

(** The strings of [ls], one after the other. *)
Definition join (ls : list string) : string := foldr String.append "" ls.

(** A labelled edge statement. *)
Definition edge_statement (cfg : Analysis block) (label : string) (e : block * block)
    : string :=
  BB cfg e.1 +:+ " -->|" +:+ label +:+ "| " +:+ BB cfg e.2 +:+ nl.
(** The nodes of the post-dominator walk for the block [b] at position
    [n] followed by the post-dominators [l]: every node but the last has
    an edge to the next one. *)
Fixpoint post_dominator_chain_nodes (b : block) (n : nat) (l : list block)
    : FlowGraph block :=
  match l with
  | [] => [ {| lines := Disassembly b; outgoing := [] |} ]
  | a :: l =>
    {| lines := Disassembly b; outgoing := [(UnconditionalBranch, S n)] |}
      :: post_dominator_chain_nodes a (S n) l
  end.

(** [y] is a member of the dominance frontier of [x]. *)
Definition in_frontier_of (cfg : Analysis block) (x y : block) : Prop :=
  y ∈ dominance_frontier cfg x.

(** The edge [e] of a graph with the node texts [texts] goes from the
    node of a block to the node of one of its [children]. *)
Definition parent_to_child (children : block → list block)
    (texts : list (Lines block)) (e : nat * nat) : Prop :=
  ∃ p c, texts !! e.1 = Some (Disassembly p) ∧ texts !! e.2 = Some (Disassembly c)
         ∧ c ∈ children p.

(** What a tree walk adds to the graph [g] to make [g']: nodes for the
    blocks [D], and the edges [E], one into each new node, each from a
    parent to a child. *)
Definition adds (children : block → list block) (g g' : FlowGraph block)
    (D : list block) (E : list (nat * nat)) : Prop :=
  lines <$> g' = (lines <$> g) ++ (Disassembly <$> D)
  ∧ graph_edges g' ≡ₚ graph_edges g ++ E
  ∧ E.*2 ≡ₚ seq (length g) (length D)
  ∧ Forall (parent_to_child children (lines <$> g')) E.

(** The seed set of the iterated-frontier export for the addresses
    [variable_blocks]. *)
Definition seed_blocks (cfg : Analysis block) (func : Function block)
    (variable_blocks : list N) : gset block :=
  foldl (λ blocks addr, add_block_at cfg addr (basic_blocks func) blocks)
        ∅ variable_blocks.


(** [x] is the first block of [bbs] that starts at [addr]. *)
Definition first_at (cfg : Analysis block) (bbs : list block) (addr : N) (x : block)
    : Prop :=
  ∃ before after, bbs = before ++ x :: after ∧ start cfg x = addr
                  ∧ Forall (λ y, start cfg y ≠ addr) before.

(** An unlabelled edge statement. *)
Definition plain_edge_statement (cfg : Analysis block) (e : block * block) : string :=
  BB cfg e.1 +:+ " --> " +:+ BB cfg e.2 +:+ nl.

End Relations.

(** * Sample relations *)

Module Samples.
(** A loop: 0 → 1, 1 → 2, 2 → 1, 1 → 3.  Block 1 is the loop header, in
    its own dominance frontier; block 3 is the only exit. *)
Definition loop : Analysis nat := {|
  start := λ b, (4096 + 16 * N.of_nat b)%N;
  immediate_dominator := λ b,
    match b with 1 => Some 0 | 2 => Some 1 | 3 => Some 1 | _ => None end;
  dominator_tree_children := λ b,
    match b with 0 => [1] | 1 => [2; 3] | _ => [] end;
  dominance_frontier := λ b,
    match b with 1 => [1] | 2 => [1] | _ => [] end;
  immediate_post_dominator := λ b,
    match b with 0 => Some 1 | 1 => Some 3 | 2 => Some 1 | _ => None end;
  post_dominator_tree_children := λ b,
    match b with 3 => [1] | 1 => [0; 2] | _ => [] end;
  post_dominance_frontier := λ b,
    match b with 1 => [1] | 2 => [1] | _ => [] end;
  outgoing_edges := λ b,
    match b with 0 => [1] | 1 => [2; 3] | 2 => [1] | _ => [] end;
|}.

Definition loop_function : Function nat := {| basic_blocks := [0; 1; 2; 3] |}.

(** Two exits: 0 → 1, 0 → 2, and neither 1 nor 2 has a successor.  No
    block post-dominates another. *)
Definition two_exits : Analysis nat := {|
  start := λ b, (256 * N.of_nat (S b))%N;
  immediate_dominator := λ b,
    match b with 1 => Some 0 | 2 => Some 0 | _ => None end;
  dominator_tree_children := λ b,
    match b with 0 => [1; 2] | _ => [] end;
  dominance_frontier := λ _, [];
  immediate_post_dominator := λ _, None;
  post_dominator_tree_children := λ _, [];
  post_dominance_frontier := λ _, [];
  outgoing_edges := λ b, match b with 0 => [1; 2] | _ => [] end;
|}.

Definition two_exits_function : Function nat := {| basic_blocks := [0; 1; 2] |}.

(** A malformed relation: block 0 is its own immediate dominator, its
    own immediate post-dominator and its own child. *)
Definition self_dominated : Analysis nat := {|
  start := λ _, 4096%N;
  immediate_dominator := λ _, Some 0;
  dominator_tree_children := λ _, [0];
  dominance_frontier := λ _, [];
  immediate_post_dominator := λ _, Some 0;
  post_dominator_tree_children := λ _, [0];
  post_dominance_frontier := λ _, [];
  outgoing_edges := λ _, [];
|}.

Definition self_dominated_function : Function nat := {| basic_blocks := [0] |}.

(** A binary view with [self_dominated_function] at every address. *)
Definition self_dominated_view : N → option (Function nat) :=
  λ _, Some self_dominated_function.

(** Entry block 0 at 0x100, whose only dominance-frontier member is
    block 1 at 0x200; the frontier of block 1 is empty. *)
Definition one_frontier : Analysis nat := {|
  start := λ b, (256 * N.of_nat (S b))%N;
  immediate_dominator := λ _, None;
  dominator_tree_children := λ _, [];
  dominance_frontier := λ b, match b with 0 => [1] | _ => [] end;
  immediate_post_dominator := λ _, None;
  post_dominator_tree_children := λ _, [];
  post_dominance_frontier := λ _, [];
  outgoing_edges := λ _, [];
|}.

(** A binary view with the two blocks of [one_frontier] at 0x100. *)
Definition one_frontier_view : N → option (Function nat) :=
  λ a, if decide (a = 256%N) then Some {| basic_blocks := [0; 1] |} else None.

(** A binary view without any function. *)
Definition no_functions : N → option (Function nat) := λ _, None.

(** A binary view with [loop_function] at 0x1000. *)
Definition loop_view : N → option (Function nat) :=
  λ a, if decide (a = 4096%N) then Some loop_function else None.
End Samples.

(** * Properties of the graph builder *)

Section FlowGraphFacts.
Context {block : Type}.
Implicit Types (g : FlowGraph block) (b : option block).

Lemma get_block_node_graph g b :
  ∃ n, (get_block_node g b).1 = g ++ [n] ∧ outgoing n = []
       ∧ node_block n = b ∧ (b = None → lines n = DisassemblyTextLine "No block found").
Proof. destruct b; eexists; repeat split; done. Qed.

Lemma get_block_node_index g b : (get_block_node g b).2 = length g.
Proof. reflexivity. Qed.

Lemma add_outgoing_edge_last g n kind target :
  add_outgoing_edge (g ++ [n]) (length g) kind target = g ++ [with_edge (kind, target) n].
Proof.
  unfold add_outgoing_edge. rewrite alter_app_r_alt by lia.
  by rewrite Nat.sub_diag.
Qed.

Lemma add_outgoing_edge_length g i kind target :
  length (add_outgoing_edge g i kind target) = length g.
Proof. apply length_alter. Qed.

Lemma add_outgoing_edge_lines g i kind target :
  lines <$> add_outgoing_edge g i kind target = lines <$> g.
Proof.
  unfold add_outgoing_edge. revert i.
  induction g as [|n g IH]; intros [|i]; simpl; [done..|].
  f_equal. apply IH.
Qed.

Lemma graph_blocks_cons n g :
  graph_blocks (n :: g) = from_option (λ x, [x]) [] (node_block n) ++ graph_blocks g.
Proof. unfold graph_blocks. simpl. by destruct (node_block n). Qed.

Lemma graph_blocks_lines g g' : lines <$> g = lines <$> g' → graph_blocks g = graph_blocks g'.
Proof.
  revert g'. induction g as [|n g IH]; intros [|n' g'] Heq; try done.
  injection Heq as Hn Hg. rewrite !graph_blocks_cons, (IH g' Hg).
  unfold node_block. by rewrite Hn.
Qed.

Lemma graph_blocks_add_outgoing_edge g i kind target :
  graph_blocks (add_outgoing_edge g i kind target) = graph_blocks g.
Proof. apply graph_blocks_lines, add_outgoing_edge_lines. Qed.

Lemma graph_blocks_app g g' : graph_blocks (g ++ g') = graph_blocks g ++ graph_blocks g'.
Proof. apply omap_app. Qed.

Lemma edges_from_app k g g' :
  edges_from k (g ++ g') = edges_from k g ++ edges_from (k + length g) g'.
Proof.
  revert k. induction g as [|n g IH]; intros k; simpl.
  - by rewrite Nat.add_0_r.
  - rewrite IH, <-(assoc_L (++)). do 3 f_equal. lia.
Qed.

Lemma edges_from_length k g : length (edges_from k g) = sum_list (length ∘ outgoing <$> g).
Proof.
  revert k. induction g as [|n g IH]; intros k; simpl; [done|].
  by rewrite length_app, length_fmap, IH.
Qed.
End FlowGraphFacts.

(** * Chain walks *)

Section ChainFacts.
Context {block : Type} `{Countable block}.
Variable cfg : Analysis block.
Implicit Types (g : FlowGraph block) (b a : block) (l : list block).

Lemma dominator_chain_nodes_lines cur n l :
  lines <$> dominator_chain_nodes cur n l = Disassembly <$> l.
Proof.
  revert cur n. induction l as [|a l IH]; intros cur n; simpl; [done|].
  by rewrite IH.
Qed.

Lemma dominator_chain_nodes_length cur n l :
  length (dominator_chain_nodes cur n l) = length l.
Proof. revert cur n. induction l; intros; simpl; auto. Qed.

(** Counted from its first node, the chain has one edge per node, each
    to the node just before it. *)
Lemma dominator_chain_nodes_edges n l :
  edges_from (S n) (dominator_chain_nodes n (S n) l)
  = (λ i, (S i, i)) <$> seq n (length l).
Proof.
  revert n. induction l as [|a l IH]; intros n; simpl; [done|].
  f_equal. apply IH.
Qed.

(** The walk appends the chain's nodes and stops, when it is given at
    least one round per ancestor. *)
Lemma DominatorsSlice_walk_chain fuel g cur b l :
  chain (immediate_dominator cfg) b l →
  length l ≤ fuel →
  DominatorsSlice_walk cfg fuel g cur (immediate_dominator cfg b)
  = Some (g ++ dominator_chain_nodes cur (length g) l).
Proof.
  intros Hc. revert fuel g cur.
  induction Hc as [b Hb|b a l Hb Hc IH]; intros fuel g cur Hfuel.
  - rewrite Hb. destruct fuel; simpl; by rewrite app_nil_r.
  - rewrite Hb. destruct fuel as [|fuel]; simpl in *; [lia|].
    rewrite add_outgoing_edge_last, IH by lia.
    rewrite length_app, <-(assoc_L (++)). simpl.
    do 4 f_equal. lia.
Qed.

(** With a block on a cycle ahead, every bound on the rounds is hit. *)
Lemma follow_S next k b : follow next (S k) b = next b ≫= follow next k.
Proof. done. Qed.

Lemma follow_add next i d b :
  follow next (i + d) b = follow next i b ≫= follow next d.
Proof.
  revert b. induction i as [|i IH]; intros b; simpl; [done|].
  destruct (next b) as [a|]; simpl; [apply IH|done].
Qed.

Lemma follow_prefix next i d b :
  is_Some (follow next (i + d) b) → is_Some (follow next i b).
Proof.
  rewrite follow_add. destruct (follow next i b); [eauto|].
  intros [? ?]; done.
Qed.

Lemma revisits_follow next b : revisits next b → ∀ k, is_Some (follow next k b).
Proof.
  intros (i & j & c & Hij & Hi & Hj).
  assert (Hloop : follow next (j - i) c = Some c).
  { replace j with (i + (j - i)) in Hj by lia.
    rewrite follow_add, Hi in Hj. exact Hj. }
  assert (Hc : ∀ m, is_Some (follow next m c)).
  { intros m. induction (lt_wf m) as [m _ IH].
    destruct (decide (m < j - i)) as [Hlt|Hge].
    - apply (follow_prefix next m (j - i - m)).
      replace (m + (j - i - m)) with (j - i) by lia. rewrite Hloop; eauto.
    - replace m with ((j - i) + (m - (j - i))) by lia.
      rewrite follow_add, Hloop. simpl. apply IH. lia. }
  intros k. destruct (decide (k ≤ i)) as [Hle|Hgt].
  - apply (follow_prefix next k (i - k)).
    replace (k + (i - k)) with i by lia. rewrite Hi; eauto.
  - replace k with (i + (k - i)) by lia.
    rewrite follow_add, Hi. simpl. apply Hc.
Qed.

Lemma follow_next_Some next b :
  (∀ k, is_Some (follow next k b)) →
  ∃ a, next b = Some a ∧ ∀ k, is_Some (follow next k a).
Proof.
  intros Hall. destruct (next b) as [a|] eqn:Hb.
  - exists a. split; [done|]. intros k.
    specialize (Hall (S k)). by rewrite follow_S, Hb in Hall.
  - specialize (Hall 1). rewrite follow_S, Hb in Hall. by destruct Hall.
Qed.

Lemma DominatorsSlice_walk_endless fuel g cur b :
  (∀ k, is_Some (follow (immediate_dominator cfg) k b)) →
  DominatorsSlice_walk cfg fuel g cur (immediate_dominator cfg b) = None.
Proof.
  revert g cur b. induction fuel as [|fuel IH]; intros g cur b Hall;
    destruct (follow_next_Some _ _ Hall) as (a & Ha & Hall'); rewrite Ha; simpl.
  - done.
  - apply IH, Hall'.
Qed.

Lemma PostDominatorsSlice_walk_endless fuel g cur b :
  (∀ k, is_Some (follow (immediate_post_dominator cfg) k b)) →
  PostDominatorsSlice_walk cfg fuel g cur (immediate_post_dominator cfg b) = None.
Proof.
  revert g cur b. induction fuel as [|fuel IH]; intros g cur b Hall;
    destruct (follow_next_Some _ _ Hall) as (a & Ha & Hall'); rewrite Ha; simpl.
  - done.
  - apply IH, Hall'.
Qed.
End ChainFacts.

(** * Tree walks *)

Section TreeFacts.
Context {block : Type} `{Countable block}.
Variable children : block → list block.
Implicit Types (g : FlowGraph block) (b c p x : block) (cs D : list block).

Local Abbreviation child := (child_of children).

Lemma tc_child_inv b x : tc child b x ↔ ∃ c, c ∈ children b ∧ rtc child c x.
Proof.
  split.
  - intros Htc. inversion Htc as [? c Hc|? c ? Hc Hrest]; subst.
    + exists x. split; [done|]. apply rtc_refl.
    + exists c. split; [done|]. by apply tc_rtc.
  - intros (c & Hc & Hrtc). apply rtc_tc in Hrtc as [->|Htc].
    + by apply tc_once.
    + by eapply tc_l.
Qed.

(** ** Forests *)

Section Forest.
Variable idom : block → option block.
Variable blocks : list block.
Hypothesis forest : well_formed_forest children idom blocks.

(** The ancestors of a block lie on one path. *)
Lemma ancestors_comparable a b x :
  rtc child a x → rtc child b x → rtc child a b ∨ rtc child b a.
Proof using forest.
  intros Ha. revert b.
  apply (rtc_ind_r (R:=child) (λ x, ∀ b, rtc child b x → rtc child a b ∨ rtc child b a) a);
    [|clear x Ha; intros y z Hay Hyz IH|exact Ha]; intros b Hb.
  - by right.
  - apply rtc_inv_r in Hb as [->|(y' & Hby' & Hy'z)].
    + left. by eapply rtc_r.
    + apply (forest_parent _ _ _ forest) in Hyz, Hy'z.
      assert (y' = y) as -> by congruence. by apply IH.
Qed.

Lemma descendant_of_sibling p c1 c2 :
  c1 ∈ children p → c2 ∈ children p → rtc child c1 c2 → c1 = c2.
Proof using forest.
  intros Hc1 Hc2 Hrtc. apply rtc_inv_r in Hrtc as [->|(q & Hc1q & Hqc2)]; [done|].
  apply (forest_parent _ _ _ forest) in Hqc2 as Hq.
  apply (forest_parent _ _ _ forest) in Hc2 as Hp.
  assert (q = p) as -> by congruence.
  destruct (tree_acyclic _ _ (forest_tree _ _ _ forest) c1).
  eapply tc_rtc_l; [done|]. by apply tc_once.
Qed.

Lemma siblings_disjoint p c1 c2 x :
  c1 ∈ children p → c2 ∈ children p → rtc child c1 x → rtc child c2 x → c1 = c2.
Proof using forest.
  intros Hc1 Hc2 H1 H2.
  destruct (ancestors_comparable c1 c2 x H1 H2) as [Hrtc|Hrtc].
  - by eapply descendant_of_sibling.
  - symmetry. by eapply descendant_of_sibling.
Qed.
End Forest.

(** ** What a returning walk has appended *)

Lemma for_each_child_lines idom blocks
    (recurse : FlowGraph block → block → nat → option (FlowGraph block)) pn p cs :
  (∀ c, c ∈ cs → c ∈ children p) →
  (∀ g c cn g', c ∈ cs → recurse g c cn = Some g' →
     ∃ D, lines <$> g' = (lines <$> g) ++ (Disassembly <$> D)
          ∧ (∀ x, x ∈ D ↔ tc child c x)
          ∧ (well_formed_forest children idom blocks → NoDup D)) →
  ∀ g g', for_each_child recurse pn cs g = Some g' →
    ∃ D, lines <$> g' = (lines <$> g) ++ (Disassembly <$> D)
         ∧ (∀ x, x ∈ D ↔ ∃ c, c ∈ cs ∧ rtc child c x)
         ∧ (well_formed_forest children idom blocks → NoDup cs → NoDup D).
Proof.
  induction cs as [|c cs IH]; intros Hcs Hrec g g' Hrun; simpl in Hrun.
  - injection Hrun as <-. exists []. rewrite app_nil_r. split; [done|]. split.
    + intros x. split; [by intros ?%elem_of_nil|]. by intros (? & ?%elem_of_nil & _).
    + intros _ _. apply NoDup_nil_2.
  - destruct (recurse _ c (length g)) as [g1|] eqn:Hc; [|done].
    apply Hrec in Hc as (Dc & Hlines & HDc & HndDc); [|apply list_elem_of_here].
    apply IH in Hrun as (Dcs & Hlines' & HDcs & HndDcs).
    2:{ intros; by apply Hcs, list_elem_of_further. }
    2:{ intros ????? Hr. eapply Hrec; [by apply list_elem_of_further|done]. }
    exists (c :: Dc ++ Dcs). split; [|split].
    + rewrite Hlines', Hlines, add_outgoing_edge_lines.
      rewrite !fmap_app, <-!(assoc_L (++)). simpl. by rewrite fmap_app.
    + intros x. rewrite elem_of_cons, elem_of_app, HDc, HDcs. split.
      * intros [->|[Htc|(c' & Hc' & Hx)]].
        -- exists c. split; [apply list_elem_of_here|apply rtc_refl].
        -- exists c. split; [apply list_elem_of_here|by apply tc_rtc].
        -- exists c'. split; [by apply list_elem_of_further|done].
      * intros (c' & [->|Hc']%elem_of_cons & Hx).
        -- apply rtc_tc in Hx as [->|Htc]; auto.
        -- right; right. eauto.
    + intros Hwf [Hc_cs Hnd_cs]%NoDup_cons.
      assert (Hsib : ∀ x, rtc child c x → ∀ c', c' ∈ cs → ¬ rtc child c' x).
      { intros x Hcx c' Hc' Hc'x. apply Hc_cs.
        assert (c = c') as ->; [|done].
        eapply (siblings_disjoint idom blocks Hwf p); [| |done..].
        - apply Hcs, list_elem_of_here.
        - by apply Hcs, list_elem_of_further. }
      apply NoDup_cons. split; [|apply NoDup_app; split_and!; auto].
      * rewrite elem_of_app, HDc, HDcs. intros [Htc|(c' & Hc' & Hx)].
        -- by apply (tree_acyclic _ _ (forest_tree _ _ _ Hwf) c).
        -- by apply (Hsib c (rtc_refl _ c) c').
      * intros x Hx%HDc (c' & Hc' & Hc'x)%HDcs.
        apply tc_rtc in Hx. by apply (Hsib x Hx c').
Qed.

Lemma add_children_lines idom blocks fuel g b pn g' :
  add_children children fuel g b pn = Some g' →
  ∃ D, lines <$> g' = (lines <$> g) ++ (Disassembly <$> D)
       ∧ (∀ x, x ∈ D ↔ tc child b x)
       ∧ (well_formed_forest children idom blocks → NoDup D).
Proof.
  revert g b pn g'. induction fuel as [|fuel IH]; intros g b pn g' Hrun; [done|].
  simpl in Hrun.
  eapply (for_each_child_lines idom blocks _ _ b) in Hrun as (D & Hlines & HD & Hnd).
  - exists D. split; [done|]. split.
    + intros x. by rewrite HD, tc_child_inv.
    + intros Hwf. apply Hnd; [done|]. apply (forest_once _ _ _ Hwf).
  - done.
  - intros ????? Hr. by eapply IH.
Qed.

(** ** Walks that do not return *)

Lemma reaches_cycle_child b :
  reaches_cycle children b → ∃ c, c ∈ children b ∧ reaches_cycle children c.
Proof.
  intros (z & Hbz & Hz). apply rtc_inv in Hbz as [->|(c & Hc & Hcz)].
  - apply tc_child_inv in Hz as (c & Hc & Hcz). exists c. split; [done|].
    exists z. split; [done|]. apply tc_child_inv. eauto.
  - exists c. split; [done|]. by exists z.
Qed.

Lemma for_each_child_stuck
    (recurse : FlowGraph block → block → nat → option (FlowGraph block)) pn cs c :
  c ∈ cs → (∀ g cn, recurse g c cn = None) →
  ∀ g, for_each_child recurse pn cs g = None.
Proof.
  intros Hc Hstuck. induction cs as [|c' cs IH]; intros g; [by apply elem_of_nil in Hc|].
  simpl. destruct (recurse _ c' _) as [g1|] eqn:Hrun; [|done].
  apply elem_of_cons in Hc as [->|Hc]; [by rewrite Hstuck in Hrun|by apply IH].
Qed.

Lemma add_children_endless fuel g b pn :
  reaches_cycle children b → add_children children fuel g b pn = None.
Proof.
  revert g b pn. induction fuel as [|fuel IH]; intros g b pn Hcyc; [done|].
  apply reaches_cycle_child in Hcyc as (c & Hc & Hcyc). simpl.
  eapply for_each_child_stuck; [done|]. intros; by apply IH.
Qed.

(** ** Walks that return *)

Lemma for_each_child_returns
    (recurse : FlowGraph block → block → nat → option (FlowGraph block)) pn cs :
  (∀ g c cn, c ∈ cs → is_Some (recurse g c cn)) →
  ∀ g, is_Some (for_each_child recurse pn cs g).
Proof.
  induction cs as [|c cs IH]; intros Hrec g; simpl; [eauto|].
  destruct (Hrec (add_outgoing_edge (g ++ [ {| lines := Disassembly c; outgoing := [] |} ])
                    pn UnconditionalBranch (length g)) c (length g)) as [g1 ->];
    [apply list_elem_of_here|].
  apply IH. intros; apply Hrec; by apply list_elem_of_further.
Qed.

Lemma add_children_returns blocks fuel path g b pn :
  finite_tree children blocks →
  NoDup (b :: path) →
  (∀ a, a ∈ b :: path → a ∈ blocks) →
  (∀ a, a ∈ path → tc child a b) →
  length blocks < fuel + length (b :: path) →
  is_Some (add_children children fuel g b pn).
Proof.
  intros [Hclosed Hacyclic]. revert path g b pn.
  induction fuel as [|fuel IH]; intros path g b pn Hnodup Hin Hanc Hfuel.
  - apply NoDup_submseteq in Hin; [|done].
    apply submseteq_length in Hin. simpl in *. lia.
  - simpl. apply for_each_child_returns. intros g1 c cn Hc.
    apply (IH (b :: path)).
    + apply NoDup_cons. split; [|done].
      intros [->|Hcp]%elem_of_cons.
      * apply (Hacyclic b). by apply tc_once.
      * apply (Hacyclic c). eapply tc_r; [by apply Hanc|done].
    + intros a [->|Ha]%elem_of_cons; [|by apply Hin].
      eapply Hclosed; [|done]. apply Hin, list_elem_of_here.
    + intros a [->|Ha]%elem_of_cons; [by apply tc_once|].
      eapply tc_r; [by apply Hanc|done].
    + simpl in *. lia.
Qed.
End TreeFacts.

(** * The worklist loop *)

Section WorklistFacts.
Context {block : Type} `{Countable block}.
Variable cfg : Analysis block.
Implicit Types (fr F U : gset block) (wl l pops pushed : list block) (b x : block).

Local Abbreviation df := (dominance_frontier cfg).

(** One round of the [for] loop inserts the members of [l] into the
    frontier, and pushes those that were not in it, once each. *)
Lemma idf_visit_foldl fr wl l :
  ∃ new, foldl idf_visit (fr, wl) l = (fr ∪ list_to_set l, wl ++ new)
         ∧ NoDup new
         ∧ (∀ x, x ∈ new ↔ x ∈ l ∧ x ∉ fr).
Proof.
  revert fr wl. induction l as [|a l IH]; intros fr wl; simpl.
  - exists []. rewrite app_nil_r, (right_id_L ∅ (∪)). split; [done|].
    split; [apply NoDup_nil_2|]. intros x. rewrite !elem_of_nil. tauto.
  - unfold idf_visit at 2. simpl. destruct (decide (a ∈ fr)) as [Hin|Hnin].
    + destruct (IH fr wl) as (new & -> & Hnd & Hnew). clear IH. exists new.
      split; [|split; [done|]].
      * f_equal. apply set_eq. intros x.
        rewrite !elem_of_union, elem_of_singleton.
        destruct (decide (x = a)) as [->|]; tauto.
      * intros x. rewrite Hnew, elem_of_cons. clear Hnew.
        destruct (decide (x = a)) as [->|]; tauto.
    + destruct (IH ({[a]} ∪ fr) (wl ++ [a])) as (new & -> & Hnd & Hnew). clear IH.
      exists (a :: new). rewrite <-(assoc_L (++)). simpl.
      split; [|split].
      * f_equal. apply set_eq. intros x.
        rewrite !elem_of_union, elem_of_singleton. tauto.
      * apply NoDup_cons. split; [|done]. rewrite Hnew, elem_of_union, elem_of_singleton.
        tauto.
      * intros x. rewrite !elem_of_cons, Hnew, elem_of_union, elem_of_singleton.
        clear Hnew. destruct (decide (x = a)) as [->|]; tauto.
Qed.

(** The frontier only grows. *)
Lemma idf_visit_foldl_grows fr wl l : fr ⊆ (foldl idf_visit (fr, wl) l).1.
Proof. destruct (idf_visit_foldl fr wl l) as (new & -> & _). apply union_subseteq_l. Qed.

Lemma idf_worklist_pops_fst fuel fr wl :
  fst <$> idf_worklist_pops cfg fuel fr wl = idf_worklist cfg fuel fr wl.
Proof.
  revert fr wl. induction fuel as [|fuel IH]; intros fr [|b wl]; simpl; try done.
  rewrite <-IH. by destruct (idf_worklist_pops _ _ _ _) as [[??]|].
Qed.

(** What a finished run has done: the blocks popped are the seeds
    followed by the blocks pushed; the blocks pushed are the result's
    new members, each pushed once; and the frontier of every popped
    block is in the result. *)
Lemma idf_worklist_pops_spec fuel fr wl F pops :
  idf_worklist_pops cfg fuel fr wl = Some (F, pops) →
  ∃ pushed, pops = wl ++ pushed
            ∧ NoDup pushed
            ∧ (∀ x, x ∈ pushed → x ∉ fr)
            ∧ F = fr ∪ list_to_set pushed
            ∧ (∀ x y, x ∈ pops → y ∈ df x → y ∈ F)
            ∧ length pops ≤ fuel.
Proof.
  revert fr wl F pops. induction fuel as [|fuel IH]; intros fr [|b wl] F pops Hrun;
    simpl in Hrun; try done.
  - injection Hrun as <- <-. exists [].
    split_and!; [done|apply NoDup_nil_2|by intros ? ?%elem_of_nil| |
                 by intros ?? ?%elem_of_nil|done].
    simpl. by rewrite (right_id_L ∅ (∪)).
  - injection Hrun as <- <-. exists [].
    split_and!; [done|apply NoDup_nil_2|by intros ? ?%elem_of_nil| |
                 by intros ?? ?%elem_of_nil|simpl; lia].
    simpl. by rewrite (right_id_L ∅ (∪)).
  - destruct (idf_visit_foldl fr wl (df b)) as (new & Hst & Hnd & Hnew).
    rewrite Hst in Hrun. simpl in Hrun.
    destruct (idf_worklist_pops _ _ _ _) as [[F' pops']|] eqn:Hrec; [|done].
    injection Hrun as <- <-.
    apply IH in Hrec as (pushed & -> & Hnd' & Hfresh & -> & Hclosed & Hlen).
    exists (new ++ pushed). split_and!.
    + by rewrite <-(assoc_L (++)).
    + apply NoDup_app. split_and!; [done| |done].
      intros x Hx Hx'. apply Hfresh in Hx'. apply Hnew in Hx as [Hx _].
      apply Hx'. apply elem_of_union. right. by apply elem_of_list_to_set.
    + intros x [Hx|Hx]%elem_of_app; [by apply Hnew in Hx as [_ ?]|].
      apply Hfresh in Hx. intros Hfr. apply Hx, elem_of_union. by left.
    + rewrite list_to_set_app_L. apply set_eq. intros x.
      rewrite !elem_of_union, !elem_of_list_to_set, Hnew.
      destruct (decide (x ∈ fr)); tauto.
    + intros x y [->|Hx]%elem_of_cons Hy; [|by eapply Hclosed].
      apply elem_of_union. left. apply elem_of_union. right.
      by apply elem_of_list_to_set.
    + simpl. lia.
Qed.

(** A run over a finite universe [U] finishes, within one round per
    seed and per block not yet in the frontier. *)
Lemma idf_worklist_pops_returns U fuel fr wl :
  (∀ b x, b ∈ wl ∨ b ∈ U → x ∈ df b → x ∈ U) →
  fr ⊆ U →
  size (U ∖ fr) + length wl ≤ fuel →
  ∃ F pops, idf_worklist_pops cfg fuel fr wl = Some (F, pops) ∧ F ⊆ U.
Proof.
  revert fr wl. induction fuel as [|fuel IH]; intros fr [|b wl] Hclosed Hfr Hfuel;
    simpl in *; [by eauto|lia|by eauto|].
  destruct (idf_visit_foldl fr wl (df b)) as (new & Hst & Hnd & Hnew).
  rewrite Hst. simpl.
  assert (HdfU : list_to_set (df b) ⊆ U).
  { intros x Hx%elem_of_list_to_set. eapply Hclosed; [left; apply list_elem_of_here|done]. }
  destruct (IH (fr ∪ list_to_set (df b)) (wl ++ new)) as (F & pops & -> & HF).
  - intros b' x [[Hb'|Hb']%elem_of_app|Hb'] Hx.
    + eapply Hclosed; [left; by apply list_elem_of_further|done].
    + eapply Hclosed; [right|done]. apply Hnew in Hb' as [Hb' _].
      apply HdfU. by apply elem_of_list_to_set.
    + eapply Hclosed; [by right|done].
  - by apply union_least.
  - assert (Hsplit : U ∖ fr = list_to_set new ∪ U ∖ (fr ∪ list_to_set (df b))).
    { apply set_eq. intros x.
      rewrite elem_of_union, !elem_of_difference, elem_of_union, elem_of_list_to_set, Hnew.
      rewrite elem_of_list_to_set.
      specialize (HdfU x). rewrite elem_of_list_to_set in HdfU.
      destruct (decide (x ∈ df b)), (decide (x ∈ fr)); tauto. }
    assert (Hdisj : list_to_set new ## U ∖ (fr ∪ list_to_set (df b))).
    { intros x Hx%elem_of_list_to_set [_ Hx']%elem_of_difference.
      apply Hnew in Hx as [Hx _]. apply Hx', elem_of_union. right.
      by apply elem_of_list_to_set. }
    assert (Hsize : size (U ∖ fr)
                    = length new + size (U ∖ (fr ∪ list_to_set (df b)))).
    { rewrite Hsplit, size_union, size_list_to_set by done. done. }
    rewrite length_app. lia.
  - simpl. eauto.
Qed.
End WorklistFacts.

(** * Node creation *)

(** C9.  Every call of [get_block_node] makes a node that was not in the
    graph before: two calls for the same block give two different nodes,
    both showing that block, and the graph shows the block twice.  No view
    looks a block up among the nodes already made; so the
    immediate-dominator view of a block that is its own immediate
    dominator shows the block twice. *)
Theorem get_block_node_distinct {block : Type} (cfg : Analysis block)
    (g : FlowGraph block) (b : block) :
  let first := get_block_node g (Some b) in
  let second := get_block_node first.1 (Some b) in
  g !! first.2 = None
  ∧ first.2 ≠ second.2
  ∧ node_block <$> second.1 !! first.2 = Some (Some b)
  ∧ node_block <$> second.1 !! second.2 = Some (Some b)
  ∧ graph_blocks second.1 = graph_blocks g ++ [b; b]
  ∧ (immediate_dominator cfg b = Some b →
     graph_blocks (ImmediateDominatorSlice_get_flowgraph cfg (Some b)) = [b; b]).
Proof.
  simpl. split_and!.
  - apply lookup_ge_None_2. lia.
  - rewrite length_app. simpl. lia.
  - rewrite lookup_app_l by (rewrite length_app; simpl; lia).
    by rewrite list_lookup_middle.
  - by rewrite list_lookup_middle.
  - by rewrite !graph_blocks_app, <-(assoc_L (++)).
  - intros Hself. unfold ImmediateDominatorSlice_get_flowgraph. by rewrite Hself.
Qed.

Lemma get_block_node_distinct_witness :
  immediate_dominator Samples.self_dominated 0 = Some 0
  ∧ graph_blocks (ImmediateDominatorSlice_get_flowgraph Samples.self_dominated (Some 0))
    = [0; 0].
Proof.
  split; [reflexivity|].
  apply (get_block_node_distinct Samples.self_dominated [] 0). reflexivity.
Defined.

(** * Chain views *)

Lemma chain_lookup_parent {block : Type} (next : block → option block) b l i a :
  chain next b l → (b :: l) !! S i = Some a →
  ∃ d, (b :: l) !! i = Some d ∧ next d = Some a.
Proof.
  intros Hc. revert i. induction Hc as [b Hb|b a' l Hb Hc IH]; intros i Hi; [done|].
  destruct i as [|i]; simpl in *.
  - injection Hi as <-. eauto.
  - by apply IH.
Qed.

(** C2.  When following [immediate_dominator] from [b] meets the ancestors
    [l] and then [None], the dominator view (given a round per ancestor)
    returns a graph with the node of [b] followed by one node per
    ancestor, and one edge per ancestor; the edges are (1,0), (2,1), ...:
    each leaves the node of a block's immediate dominator and enters the
    node of that block. *)
Theorem DominatorsSlice_chain_view {block : Type} (cfg : Analysis block)
    (b : block) (l : list block) (fuel : nat) :
  chain (immediate_dominator cfg) b l →
  length l ≤ fuel →
  ∃ g, DominatorsSlice_get_flowgraph cfg fuel (Some b) = Some g
       ∧ lines <$> g = Disassembly <$> b :: l
       ∧ length g = S (length l)
       ∧ length (graph_edges g) = length l
       ∧ graph_edges g = (λ i, (S i, i)) <$> seq 0 (length l)
       ∧ ∀ s t, (s, t) ∈ graph_edges g →
           ∃ a d, (b :: l) !! s = Some a ∧ (b :: l) !! t = Some d
                  ∧ immediate_dominator cfg d = Some a.
Proof.
  intros Hc Hfuel. unfold DominatorsSlice_get_flowgraph. simpl.
  rewrite (DominatorsSlice_walk_chain cfg fuel _ 0 b l Hc Hfuel). simpl.
  eexists. split; [done|].
  assert (Hedges : graph_edges
            ({| lines := Disassembly b; outgoing := [] |} :: dominator_chain_nodes 0 1 l)
          = (λ i, (S i, i)) <$> seq 0 (length l)).
  { unfold graph_edges. simpl. apply dominator_chain_nodes_edges. }
  split_and!.
  - simpl. by rewrite dominator_chain_nodes_lines.
  - simpl. by rewrite dominator_chain_nodes_length.
  - by rewrite Hedges, length_fmap, length_seq.
  - done.
  - intros s t. rewrite Hedges. intros (i & [= -> ->] & Hi)%list_elem_of_fmap.
    apply elem_of_seq in Hi.
    destruct (lookup_lt_is_Some_2 (b :: l) (S i)) as [a Ha]; [simpl; lia|].
    destruct (chain_lookup_parent _ _ _ _ _ Hc Ha) as (d & Hd & Hda).
    by exists a, d.
Qed.

Lemma DominatorsSlice_chain_view_witness :
  ∃ g, DominatorsSlice_get_flowgraph Samples.loop 2 (Some 3) = Some g
       ∧ graph_blocks g = [3; 1; 0] ∧ graph_edges g = [(1, 0); (2, 1)].
Proof.
  destruct (DominatorsSlice_chain_view Samples.loop 3 [1; 0] 2)
    as (g & Hrun & _ & _ & _ & Hedges & _).
  - apply chain_step with (a := 1); [reflexivity|].
    apply chain_step with (a := 0); [reflexivity|].
    apply chain_end. reflexivity.
  - simpl. lia.
  - exists g. split; [exact Hrun|]. split; [|exact Hedges].
    vm_compute in Hrun. injection Hrun as <-. reflexivity.
Defined.

(** C7.  For a block without immediate dominator, the strict-dominators
    view returns at once a graph of one node, whose text is the line
    "No strict dominators", and no edge. *)
Theorem StrictDominatorsSlice_placeholder {block : Type} (cfg : Analysis block)
    (b : block) (fuel : nat) :
  immediate_dominator cfg b = None →
  ∃ n, StrictDominatorsSlice_get_flowgraph cfg fuel (Some b) = Some [n]
       ∧ lines n = DisassemblyTextLine "No strict dominators"
       ∧ node_block n = None
       ∧ graph_edges [n] = [].
Proof.
  intros Hnone. unfold StrictDominatorsSlice_get_flowgraph. rewrite Hnone. simpl.
  eexists. split; [reflexivity|]. by split_and!.
Qed.

Lemma StrictDominatorsSlice_placeholder_witness :
  ∃ n, StrictDominatorsSlice_get_flowgraph Samples.loop 0 (Some 0) = Some [n]
       ∧ lines n = DisassemblyTextLine "No strict dominators"
       ∧ node_block n = None
       ∧ graph_edges [n] = [].
Proof. apply (StrictDominatorsSlice_placeholder Samples.loop 0 0). reflexivity. Defined.

(** * Cycles *)

Lemma DominatorsSlice_endless {block : Type} (cfg : Analysis block) (b : block) fuel :
  revisits (immediate_dominator cfg) b →
  DominatorsSlice_get_flowgraph cfg fuel (Some b) = None.
Proof.
  intros Hrev. apply DominatorsSlice_walk_endless.
  exact (revisits_follow _ _ Hrev).
Qed.

(** The dominator view of a block that is its own immediate dominator
    does not return, whatever the number of rounds allowed: the cycle is
    not noticed and nothing is raised. *)
Lemma DominatorsSlice_cycle_undetected :
  ¬ ∃ fuel g, DominatorsSlice_get_flowgraph Samples.self_dominated fuel (Some 0) = Some g.
Proof.
  intros (fuel & g & Hrun).
  rewrite (DominatorsSlice_endless Samples.self_dominated 0 fuel) in Hrun; [done|].
  exists 0, 1, 0. split; [lia|]. split; reflexivity.
Qed.

(** C3, as the code has it.  No walk keeps track of the blocks it has
    emitted.  When following [immediate_dominator] (or
    [immediate_post_dominator]) from the current block comes back to a
    block already met, the dominators and strict-dominators views (or the
    post-dominators view) do not return within any number of rounds; when
    the root of a full tree has a descendant that is its own descendant,
    the recursion of the full-tree view exceeds every depth.  No
    malformed-input error exists. *)
Theorem walks_without_cycle_guard {block : Type} `{Countable block}
    (cfg : Analysis block) (b : block) :
  (revisits (immediate_dominator cfg) b →
   ∀ fuel, DominatorsSlice_get_flowgraph cfg fuel (Some b) = None
           ∧ StrictDominatorsSlice_get_flowgraph cfg fuel (Some b) = None)
  ∧ (revisits (immediate_post_dominator cfg) b →
     ∀ fuel, PostDominatorsSlice_get_flowgraph cfg fuel (Some b) = None)
  ∧ (reaches_cycle (dominator_tree_children cfg) b →
     ∀ fuel function, head (basic_blocks function) = Some b →
       FullDominatorTreeSlice_get_flowgraph cfg fuel (Some function) = None)
  ∧ (reaches_cycle (post_dominator_tree_children cfg) b →
     ∀ fuel function,
       head (filter (λ b, outgoing_edges cfg b = []) (basic_blocks function)) = Some b →
       FullPostDominatorTreeSlice_get_flowgraph cfg fuel (Some function) = None).
Proof.
  split_and!.
  - intros Hrev fuel. split; [by apply DominatorsSlice_endless|].
    pose proof (revisits_follow _ _ Hrev) as Hall0. clear Hrev. rename Hall0 into Hrev.
    destruct (follow_next_Some _ _ Hrev) as (a & Ha & Hall).
    unfold StrictDominatorsSlice_get_flowgraph. rewrite Ha. simpl.
    by apply DominatorsSlice_walk_endless.
  - intros Hrev fuel. apply PostDominatorsSlice_walk_endless.
    exact (revisits_follow _ _ Hrev).
  - intros Hcyc fuel function Hhead. unfold FullDominatorTreeSlice_get_flowgraph.
    destruct (basic_blocks function) as [|b' rest]; [done|].
    injection Hhead as ->. simpl. by apply add_children_endless.
  - intros Hcyc fuel function Hhead. unfold FullPostDominatorTreeSlice_get_flowgraph.
    destruct (filter _ (basic_blocks function)) as [|b' rest]; [done|].
    injection Hhead as ->. simpl. by apply add_children_endless.
Qed.

Lemma walks_without_cycle_guard_witness :
  DominatorsSlice_get_flowgraph Samples.self_dominated 8 (Some 0) = None
  ∧ StrictDominatorsSlice_get_flowgraph Samples.self_dominated 8 (Some 0) = None
  ∧ PostDominatorsSlice_get_flowgraph Samples.self_dominated 8 (Some 0) = None
  ∧ FullDominatorTreeSlice_get_flowgraph Samples.self_dominated 8
      (Some {| basic_blocks := [0] |}) = None
  ∧ FullPostDominatorTreeSlice_get_flowgraph Samples.self_dominated 8
      (Some {| basic_blocks := [0] |}) = None.
Proof.
  destruct (walks_without_cycle_guard Samples.self_dominated 0)
    as (Hdom & Hpost & Htree & Hptree).
  assert (Hrev : ∀ next : nat → option nat, next 0 = Some 0 → revisits next 0).
  { intros next Hnext. exists 0, 1, 0. split; [lia|]. split; [reflexivity|].
    simpl. rewrite Hnext. reflexivity. }
  assert (Hcyc : ∀ children : nat → list nat, children 0 = [0] → reaches_cycle children 0).
  { intros children Hch. exists 0. split; [apply rtc_refl|].
    apply tc_once. unfold child_of. rewrite Hch. apply list_elem_of_here. }
  destruct (Hdom (Hrev _ eq_refl) 8) as [Hd Hs].
  pose proof (Hpost (Hrev _ eq_refl) 8) as Hp.
  pose proof (Htree (Hcyc _ eq_refl) 8 {| basic_blocks := [0] |} eq_refl) as Ht.
  pose proof (Hptree (Hcyc _ eq_refl) 8 {| basic_blocks := [0] |} eq_refl) as Hpt.
  exact (conj Hd (conj Hs (conj Hp (conj Ht Hpt)))).
Defined.

(** * Full trees *)

Lemma graph_blocks_of_lines {block : Type} (g : FlowGraph block) (l : list block) :
  lines <$> g = Disassembly <$> l → graph_blocks g = l.
Proof.
  revert l. induction g as [|n g IH]; intros [|b l] Heq; try done.
  injection Heq as Hn Hg. rewrite graph_blocks_cons, (IH l Hg).
  unfold node_block. by rewrite Hn.
Qed.

Lemma filter_first {A : Type} (P : A → Prop) `{∀ x, Decision (P x)} (l : list A) x xs :
  filter P l = x :: xs →
  ∃ before after, l = before ++ x :: after ∧ P x ∧ Forall (λ y, ¬ P y) before.
Proof.
  induction l as [|y l IH]; [done|].
  rewrite filter_cons. destruct (decide (P y)) as [Hy|Hy].
  - intros [= -> Hxs]. exists [], l. by split_and!.
  - intros (before & after & -> & Hx & Hbefore)%IH.
    exists (y :: before), after. split_and!; [done..|]. by constructor.
Qed.

(** What a full-tree view that has returned shows: its first node is the
    root, every node shows a block, and the blocks shown are the root
    followed by its descendants. *)
Lemma full_tree_blocks {block : Type} `{Countable block}
    (children : block → list block) idom blocks fuel root (g : FlowGraph block) :
  add_children children fuel [ {| lines := Disassembly root; outgoing := [] |} ] root 0
    = Some g →
  head (lines <$> g) = Some (Disassembly root)
  ∧ lines <$> g = Disassembly <$> graph_blocks g
  ∧ (∀ x, x ∈ graph_blocks g ↔ reachable children root x)
  ∧ (well_formed_forest children idom blocks → NoDup (graph_blocks g)).
Proof.
  intros Hrun.
  apply (add_children_lines children idom blocks) in Hrun as (D & Hlines & HD & Hnd).
  simpl in Hlines.
  assert (Hblocks : graph_blocks g = root :: D) by by apply graph_blocks_of_lines.
  rewrite Hblocks. split_and!.
  - by rewrite Hlines.
  - done.
  - intros x. unfold reachable. rewrite elem_of_cons, HD, rtc_tc.
    split; intros [->|?]; auto.
  - intros Hwf. apply NoDup_cons. split; [|by apply Hnd].
    rewrite HD. apply (tree_acyclic _ _ (forest_tree _ _ _ Hwf)).
Qed.

(** C6.  The full-dominator-tree view of a function without blocks is the
    empty graph.  Otherwise, when the dominator tree is a well-formed
    forest over the function's blocks, the view (given a call depth of the
    number of blocks) returns a graph whose first node is
    [basic_blocks[0]], in which every node shows a block, no block is
    shown twice, and the blocks shown are exactly those reachable from the
    entry through [dominator_tree_children]: there are as many nodes as
    reachable blocks. *)
Theorem FullDominatorTreeSlice_visits_once {block : Type} `{Countable block}
    (cfg : Analysis block) (function : Function block) :
  (basic_blocks function = [] →
   ∀ fuel, FullDominatorTreeSlice_get_flowgraph cfg fuel (Some function) = Some [])
  ∧ (∀ root rest, basic_blocks function = root :: rest →
     well_formed_forest (dominator_tree_children cfg) (immediate_dominator cfg)
       (basic_blocks function) →
     ∀ fuel, length (basic_blocks function) ≤ fuel →
     ∃ g, FullDominatorTreeSlice_get_flowgraph cfg fuel (Some function) = Some g
          ∧ head (lines <$> g) = Some (Disassembly root)
          ∧ lines <$> g = Disassembly <$> graph_blocks g
          ∧ NoDup (graph_blocks g)
          ∧ (∀ x, x ∈ graph_blocks g ↔ reachable (dominator_tree_children cfg) root x)
          ∧ (∀ l, NoDup l →
                  (∀ x, x ∈ l ↔ reachable (dominator_tree_children cfg) root x) →
                  length g = length l)).
Proof.
  unfold FullDominatorTreeSlice_get_flowgraph. split.
  - by intros ->.
  - intros root rest Hblocks Hwf fuel Hfuel. rewrite Hblocks in *. simpl.
    destruct (add_children_returns (dominator_tree_children cfg) (root :: rest) fuel []
                [ {| lines := Disassembly root; outgoing := [] |} ] root 0) as [g Hrun].
    + apply (forest_tree _ _ _ Hwf).
    + apply NoDup_singleton.
    + intros a ->%list_elem_of_singleton. apply list_elem_of_here.
    + by intros a ?%elem_of_nil.
    + simpl in *. lia.
    + exists g. split; [done|].
      destruct (full_tree_blocks _ (immediate_dominator cfg) (root :: rest) _ _ _ Hrun)
        as (Hhead & Hlines & Hreach & Hnd).
      split_and!; [done..|by apply Hnd|done|].
      intros l Hl Hlreach.
      rewrite <-(length_fmap lines), Hlines, length_fmap.
      apply Permutation_length, NoDup_Permutation; [by apply Hnd|done|].
      intros x. by rewrite Hreach, Hlreach.
Qed.

(** C5.  The full post-dominator-tree view of a function without exit
    block is the empty graph.  Otherwise its root is the first block, in
    the order of the function's blocks, without outgoing edges: a view
    that has returned has the root as first node and shows exactly the
    blocks reachable from the root through [post_dominator_tree_children];
    in particular a block under another exit block that is not reachable
    from the root is not shown.  The view returns when these children form
    a finite tree over the function's blocks. *)
Theorem FullPostDominatorTreeSlice_root {block : Type} `{Countable block}
    (cfg : Analysis block) (function : Function block) :
  let exit_blocks :=
    filter (λ b, outgoing_edges cfg b = []) (basic_blocks function) in
  (exit_blocks = [] →
   ∀ fuel, FullPostDominatorTreeSlice_get_flowgraph cfg fuel (Some function) = Some [])
  ∧ (∀ root others, exit_blocks = root :: others →
     (∃ before after,
        basic_blocks function = before ++ root :: after
        ∧ outgoing_edges cfg root = []
        ∧ Forall (λ b, outgoing_edges cfg b ≠ []) before)
     ∧ (∀ fuel g,
          FullPostDominatorTreeSlice_get_flowgraph cfg fuel (Some function) = Some g →
          head (lines <$> g) = Some (Disassembly root)
          ∧ (∀ x, x ∈ graph_blocks g
                  ↔ reachable (post_dominator_tree_children cfg) root x)
          ∧ (∀ other x, other ∈ others →
                reachable (post_dominator_tree_children cfg) other x →
                ¬ reachable (post_dominator_tree_children cfg) root x →
                x ∉ graph_blocks g))
     ∧ (finite_tree (post_dominator_tree_children cfg) (basic_blocks function) →
        ∀ fuel, length (basic_blocks function) ≤ fuel →
        is_Some (FullPostDominatorTreeSlice_get_flowgraph cfg fuel (Some function)))).
Proof.
  intros exit_blocks. unfold FullPostDominatorTreeSlice_get_flowgraph.
  fold exit_blocks. split.
  - by intros ->.
  - intros root others Hexits. rewrite Hexits. simpl.
    pose proof (filter_first _ _ _ _ Hexits) as (before & after & Hblocks & Hroot & Hbefore).
    split_and!.
    + by exists before, after.
    + intros fuel g Hrun.
      destruct (full_tree_blocks _ (immediate_post_dominator cfg) (basic_blocks function)
                  _ _ _ Hrun) as (Hhead & _ & Hreach & _).
      split_and!; [done..|]. intros other x _ _ Hnot. by rewrite Hreach.
    + intros Htree fuel Hfuel.
      apply (add_children_returns _ (basic_blocks function) fuel []); [done|..].
      * apply NoDup_singleton.
      * intros a ->%list_elem_of_singleton. rewrite Hblocks.
        apply elem_of_app. right. apply list_elem_of_here.
      * by intros a ?%elem_of_nil.
      * simpl. lia.
Qed.

(** ** The sample relations are forests *)

Lemma loop_children p c :
  c ∈ dominator_tree_children Samples.loop p →
  (p = 0 ∧ c = 1) ∨ (p = 1 ∧ (c = 2 ∨ c = 3)).
Proof.
  destruct p as [|[|p]]; simpl; intros Hc;
    repeat (apply elem_of_cons in Hc as [->|Hc]); try (by apply elem_of_nil in Hc); auto.
Qed.

Lemma loop_descendant_greater p c :
  tc (child_of (dominator_tree_children Samples.loop)) p c → p < c.
Proof.
  induction 1 as [p c Hc|p c z Hc _ IH].
  - apply loop_children in Hc. lia.
  - apply loop_children in Hc. lia.
Qed.

Lemma loop_forest :
  well_formed_forest (dominator_tree_children Samples.loop)
    (immediate_dominator Samples.loop) (basic_blocks Samples.loop_function).
Proof.
  split; [split|..].
  - intros p c _ Hc. apply loop_children in Hc. simpl.
    rewrite !elem_of_cons. lia.
  - intros b Hb%loop_descendant_greater. lia.
  - intros p c Hc. by destruct (loop_children p c Hc) as [[-> ->]|[-> [->| ->]]].
  - intros [|[|p]]; simpl; repeat constructor;
      rewrite ?elem_of_cons, ?elem_of_nil; lia.
Qed.

Lemma FullDominatorTreeSlice_visits_once_witness :
  ∃ g, FullDominatorTreeSlice_get_flowgraph Samples.loop 4 (Some Samples.loop_function)
       = Some g
       ∧ graph_blocks g = [0; 1; 2; 3]
       ∧ NoDup (graph_blocks g).
Proof.
  destruct (FullDominatorTreeSlice_visits_once Samples.loop Samples.loop_function)
    as [_ Hvisits].
  destruct (Hvisits 0 [1; 2; 3] eq_refl loop_forest 4) as (g & Hrun & _ & _ & Hnd & _).
  - simpl. lia.
  - exists g. split; [exact Hrun|]. split; [|exact Hnd].
    vm_compute in Hrun. injection Hrun as <-. reflexivity.
Defined.

Lemma two_exits_tree :
  finite_tree (post_dominator_tree_children Samples.two_exits)
    (basic_blocks Samples.two_exits_function).
Proof.
  split.
  - by intros p c _ Hc%elem_of_nil.
  - intros b Hb. inversion Hb as [?? Hc|??? Hc _]; by apply elem_of_nil in Hc.
Qed.

Lemma FullPostDominatorTreeSlice_root_witness :
  filter (λ b, outgoing_edges Samples.two_exits b = [])
    (basic_blocks Samples.two_exits_function) = [1; 2]
  ∧ ∃ g, FullPostDominatorTreeSlice_get_flowgraph Samples.two_exits 3
           (Some Samples.two_exits_function) = Some g
         ∧ head (lines <$> g) = Some (Disassembly 1)
         ∧ 2 ∉ graph_blocks g.
Proof.
  assert (Hexits : filter (λ b, outgoing_edges Samples.two_exits b = [])
                     (basic_blocks Samples.two_exits_function) = [1; 2]) by reflexivity.
  split; [exact Hexits|].
  destruct (FullPostDominatorTreeSlice_root Samples.two_exits Samples.two_exits_function)
    as [_ Hroot].
  destruct (Hroot 1 [2] Hexits) as (_ & Hshown & Hreturns).
  destruct (Hreturns two_exits_tree 3) as [g Hrun]; [simpl; lia|].
  exists g. split; [exact Hrun|].
  destruct (Hshown 3 g Hrun) as (Hhead & _ & Habsent).
  split; [exact Hhead|].
  apply (Habsent 2 2).
  - apply list_elem_of_here.
  - apply rtc_refl.
  - intros [Heq|(c & Hc & _)]%rtc_inv; [discriminate|by apply elem_of_nil in Hc].
Defined.

(** * Iterated dominance frontier *)

Section WorklistRuns.
Context {block : Type} `{Countable block}.
Variable cfg : Analysis block.
Implicit Types (fr F U : gset block) (wl seeds : list block).

Lemma idf_worklist_pops_more_fuel fuel fuel' fr wl r :
  idf_worklist_pops cfg fuel fr wl = Some r → fuel ≤ fuel' →
  idf_worklist_pops cfg fuel' fr wl = Some r.
Proof.
  revert fuel' fr wl r. induction fuel as [|fuel IH]; intros fuel' fr [|b wl] r Hrun Hle;
    simpl in Hrun; try done.
  - by destruct fuel'.
  - by destruct fuel'.
  - destruct fuel' as [|fuel']; [lia|]. simpl.
    destruct (idf_worklist_pops cfg fuel _ _) as [r'|] eqn:Hrec; [|done].
    erewrite IH; [done|done|lia].
Qed.

Lemma idf_worklist_pops_of_run fuel fr wl F :
  idf_worklist cfg fuel fr wl = Some F →
  ∃ pops, idf_worklist_pops cfg fuel fr wl = Some (F, pops).
Proof.
  rewrite <-idf_worklist_pops_fst.
  destruct (idf_worklist_pops _ _ _ _) as [[F' pops]|]; [|done].
  intros [= ->]. eauto.
Qed.

Lemma size_list_to_set_le (l : list block) : size (list_to_set l : gset block) ≤ length l.
Proof.
  unfold size, set_size. simpl. apply submseteq_length, NoDup_submseteq.
  - apply NoDup_elements.
  - intros x. by rewrite elem_of_elements, elem_of_list_to_set.
Qed.

(** The result of a run is closed under [dominance_frontier]. *)
Lemma idf_worklist_closed fuel seeds F :
  idf_worklist cfg fuel ∅ seeds = Some F →
  ∀ x y, x ∈ F → y ∈ dominance_frontier cfg x → y ∈ F.
Proof.
  intros (pops & Hrun)%idf_worklist_pops_of_run.
  apply idf_worklist_pops_spec in Hrun as (pushed & -> & _ & _ & -> & Hclosed & _).
  intros x y Hx. apply Hclosed, elem_of_app. right.
  rewrite (left_id_L ∅ (∪)) in Hx. by apply elem_of_list_to_set in Hx.
Qed.

(** A run seeded inside a set closed under [dominance_frontier] returns
    and stays inside that set. *)
Lemma idf_rerun_adds_nothing F seeds fuel :
  (∀ x y, x ∈ F → y ∈ dominance_frontier cfg x → y ∈ F) →
  (∀ x, x ∈ seeds → x ∈ F) →
  size F + length seeds ≤ fuel →
  ∃ F', idf_worklist cfg fuel ∅ seeds = Some F' ∧ F' ⊆ F.
Proof.
  intros Hclosed Hseeds Hfuel.
  destruct (idf_worklist_pops_returns cfg F fuel ∅ seeds) as (F' & pops & Hrun & HF').
  - intros b x [Hb|Hb]; eauto.
  - apply empty_subseteq.
  - by rewrite difference_empty_L.
  - exists F'. split; [|done]. by rewrite <-idf_worklist_pops_fst, Hrun.
Qed.
End WorklistRuns.

(** The view runs the loop from the single seed [current_block], and
    shows the current block followed by the members of the frontier. *)
Lemma set_iter_singleton {block : Type} `{Countable block}
    (set_iter : gset block → list block) (b : block) :
  (∀ s, set_iter s ≡ₚ elements s) → set_iter {[b]} = [b].
Proof.
  intros Hiter. apply Permutation_singleton_r.
  by rewrite Hiter, elements_singleton.
Qed.

Lemma frontier_nodes_lines {block : Type} (node : nat) (l : list block)
    (g : FlowGraph block) :
  lines <$> foldl (λ flowgraph frontier_block,
                     let '(flowgraph, frontier_node) :=
                       get_block_node flowgraph (Some frontier_block) in
                     add_outgoing_edge flowgraph node UnconditionalBranch frontier_node)
                  g l
  = (lines <$> g) ++ (Disassembly <$> l).
Proof.
  revert g. induction l as [|b l IH]; intros g; simpl; [by rewrite app_nil_r|].
  rewrite IH, add_outgoing_edge_lines, fmap_app, <-(assoc_L (++)). done.
Qed.

Lemma IteratedDominanceFrontierSlice_shows {block : Type} `{Countable block}
    (cfg : Analysis block) (set_iter : gset block → list block)
    (fuel : nat) (cb : block) (F : gset block) :
  (∀ s, set_iter s ≡ₚ elements s) →
  idf_worklist cfg fuel ∅ [cb] = Some F →
  ∃ g, IteratedDominanceFrontierSlice_get_flowgraph cfg set_iter fuel (Some cb) = Some g
       ∧ graph_blocks g = cb :: set_iter F.
Proof.
  intros Hiter Hrun. unfold IteratedDominanceFrontierSlice_get_flowgraph. simpl.
  rewrite (set_iter_singleton set_iter cb Hiter), Hrun.
  eexists. split; [done|].
  apply graph_blocks_of_lines.
  exact (frontier_nodes_lines 0 (set_iter F) [ {| lines := Disassembly cb; outgoing := [] |} ]).
Qed.

(** C1.  Let [F] be the frontier the worklist loop returns for the seed
    [B].  Running the loop again with the members of [F], in any order,
    as seeds returns (within twice [size F] rounds) a frontier that has no
    member outside [F]. *)
Theorem idf_idempotent {block : Type} `{Countable block} (cfg : Analysis block)
    (B : block) (fuel : nat) (F : gset block) :
  idf_worklist cfg fuel ∅ [B] = Some F →
  ∀ seeds, seeds ≡ₚ elements F →
  ∃ F', F' ⊆ F
        ∧ ∀ fuel', 2 * size F ≤ fuel' → idf_worklist cfg fuel' ∅ seeds = Some F'.
Proof.
  intros Hrun seeds Hseeds.
  assert (Hlen : length seeds = size F) by by rewrite Hseeds.
  destruct (idf_rerun_adds_nothing cfg F seeds (2 * size F)) as (F' & Hrun' & HF').
  - by eapply idf_worklist_closed.
  - intros x. rewrite Hseeds. apply elem_of_elements.
  - lia.
  - exists F'. split; [done|]. intros fuel' Hfuel'.
    apply idf_worklist_pops_of_run in Hrun' as (pops & Hpops).
    rewrite <-idf_worklist_pops_fst.
    by rewrite (idf_worklist_pops_more_fuel cfg _ fuel' _ _ _ Hpops Hfuel').
Qed.

Lemma idf_idempotent_witness :
  idf_worklist Samples.loop 2 ∅ [2] = Some {[1]}
  ∧ ∃ F', F' ⊆ ({[1]} : gset nat)
          ∧ idf_worklist Samples.loop 2 ∅ (elements ({[1]} : gset nat)) = Some F'.
Proof.
  assert (Hrun : idf_worklist Samples.loop 2 ∅ [2] = Some {[1]}) by (vm_compute; reflexivity).
  split; [exact Hrun|].
  destruct (idf_idempotent Samples.loop 2 2 {[1]} Hrun (elements ({[1]} : gset nat)))
    as (F' & HF' & Hrerun); [reflexivity|].
  exists F'. split; [exact HF'|]. apply Hrerun. vm_compute. lia.
Defined.

(** In the sample loop, block 1 is in its own dominance frontier: seeded
    with block 1, the worklist holds block 1 twice, first as the seed and
    again when block 1 joins the frontier. *)
Lemma idf_seed_popped_twice :
  ¬ ∀ fuel F pops,
      idf_worklist_pops Samples.loop fuel ∅ [1] = Some (F, pops) → NoDup pops.
Proof.
  intros Honce.
  assert (Hrun : idf_worklist_pops Samples.loop 2 ∅ [1] = Some ({[1]}, [1; 1]))
    by (vm_compute; reflexivity).
  apply Honce in Hrun. apply NoDup_cons in Hrun as [Hnotin _].
  apply Hnotin, list_elem_of_here.
Qed.

(** C8, as the code has it.  The loop keeps an explicit list, popped at
    the front and appended to at the back.  Over blocks [blocks] that
    contain every dominance-frontier member, a run from the seeds [seeds]
    returns within [length seeds + length blocks] rounds.  Every round
    leaves the frontier as it was or larger; the result has at most
    [length blocks] members.  The blocks popped are the seeds followed by
    the blocks pushed; those are the members of the result, each pushed
    once.  (A seed that is also a member of the result is thus in the
    worklist twice.) *)
Theorem idf_worklist_terminates {block : Type} `{Countable block} (cfg : Analysis block)
    (blocks seeds : list block) (fuel : nat) :
  frontier_closed cfg blocks →
  length seeds + length blocks ≤ fuel →
  ∃ F pushed,
    idf_worklist cfg fuel ∅ seeds = Some F
    ∧ idf_worklist_pops cfg fuel ∅ seeds = Some (F, seeds ++ pushed)
    ∧ NoDup pushed
    ∧ F = list_to_set pushed
    ∧ length (seeds ++ pushed) ≤ length seeds + length blocks
    ∧ size F ≤ length blocks
    ∧ (∀ x, x ∈ F → x ∈ blocks)
    ∧ (∀ fr wl b, fr ⊆ (foldl idf_visit (fr, wl) (dominance_frontier cfg b)).1).
Proof.
  intros Hclosed Hfuel.
  pose proof (size_list_to_set_le blocks) as Hsize.
  destruct (idf_worklist_pops_returns cfg (list_to_set blocks) fuel ∅ seeds)
    as (F & pops & Hrun & HF).
  - intros b x _ Hx. apply elem_of_list_to_set. by eapply Hclosed.
  - apply empty_subseteq.
  - rewrite difference_empty_L. lia.
  - pose proof Hrun as (pushed & -> & Hnd & _ & HFeq & _ & _)%idf_worklist_pops_spec.
    rewrite (left_id_L ∅ (∪)) in HFeq.
    assert (HFblocks : ∀ x, x ∈ F → x ∈ blocks).
    { intros x Hx%HF. by apply elem_of_list_to_set in Hx. }
    assert (Hpushed : length pushed ≤ length blocks).
    { apply submseteq_length, NoDup_submseteq; [done|].
      intros x Hx. apply HFblocks. rewrite HFeq. by apply elem_of_list_to_set. }
    exists F, pushed. split_and!.
    + by rewrite <-idf_worklist_pops_fst, Hrun.
    + done.
    + done.
    + done.
    + rewrite length_app. lia.
    + apply subseteq_size in HF. lia.
    + done.
    + intros. apply idf_visit_foldl_grows.
Qed.

Lemma loop_frontier_closed :
  frontier_closed Samples.loop (basic_blocks Samples.loop_function).
Proof.
  intros [|[|[|b]]] x; simpl; intros Hx;
    repeat (apply elem_of_cons in Hx as [->|Hx]); try (by apply elem_of_nil in Hx);
    rewrite !elem_of_cons; auto.
Qed.

Lemma idf_worklist_terminates_witness :
  ∃ F pushed,
    idf_worklist Samples.loop 5 ∅ [1] = Some F
    ∧ idf_worklist_pops Samples.loop 5 ∅ [1] = Some (F, [1] ++ pushed)
    ∧ NoDup pushed
    ∧ F = list_to_set pushed
    ∧ size F ≤ 4.
Proof.
  destruct (idf_worklist_terminates Samples.loop (basic_blocks Samples.loop_function)
              [1] 5 loop_frontier_closed)
    as (F & pushed & Hrun & Hpops & Hnd & HF & _ & Hsize & _).
  - simpl. lia.
  - exists F, pushed. exact (conj Hrun (conj Hpops (conj Hnd (conj HF Hsize)))).
Defined.

(** * Text exports *)

Section MermaidFacts.
Context {block : Type} `{Countable block}.
Variable cfg : Analysis block.

Lemma append_assoc (s1 s2 s3 : string) : (s1 +:+ s2) +:+ s3 = s1 +:+ s2 +:+ s3.
Proof.
  induction s1 as [|a s1 IH]; [done|].
  change (String a ((s1 +:+ s2) +:+ s3) = String a (s1 +:+ s2 +:+ s3)).
  by rewrite IH.
Qed.

Lemma append_nil_r (s : string) : s +:+ "" = s.
Proof.
  induction s as [|a s IH]; [done|].
  change (String a (s +:+ "") = String a s). by rewrite IH.
Qed.

Lemma hex_inj : Inj (=) (=) hex.
Proof.
  intros n m Heq. unfold hex in Heq.
  by rewrite <-(HexString.to_N_of_N n), <-(HexString.to_N_of_N m), Heq.
Qed.

Lemma BB_inj : (∀ x y, start cfg x = start cfg y → x = y) → Inj (=) (=) (BB cfg).
Proof.
  intros Hstart x y Heq. unfold BB in Heq.
  by apply (inj (String.app "BB")), hex_inj, Hstart in Heq.
Qed.

Lemma foldl_idom_statement acc (bbs : list block) :
  foldl (idom_statement cfg) acc bbs
  = acc +:+ join (edge_statement cfg "idom"
                    <$> idom_edges cfg {| basic_blocks := bbs |}).
Proof.
  unfold idom_edges. simpl. revert acc.
  induction bbs as [|bb bbs IH]; intros acc; simpl; [by rewrite append_nil_r|].
  rewrite IH. unfold idom_statement.
  destruct (immediate_dominator cfg bb) as [d|]; simpl; [|done].
  destruct (decide (d ≠ bb)); simpl; [|done].
  by rewrite append_assoc.
Qed.

Lemma foldl_ipdom_statement acc (bbs : list block) :
  foldl (ipdom_statement cfg) acc bbs
  = acc +:+ join (edge_statement cfg "ipdom"
                    <$> ipdom_edges cfg {| basic_blocks := bbs |}).
Proof.
  unfold ipdom_edges. simpl. revert acc.
  induction bbs as [|bb bbs IH]; intros acc; simpl; [by rewrite append_nil_r|].
  rewrite IH. unfold ipdom_statement.
  destruct (immediate_post_dominator cfg bb) as [d|]; simpl; [|done].
  destruct (decide (d ≠ bb)); simpl; [|done].
  by rewrite append_assoc.
Qed.

Lemma elem_of_idom_edges func d bb :
  (d, bb) ∈ idom_edges cfg func
  ↔ bb ∈ basic_blocks func ∧ immediate_dominator cfg bb = Some d ∧ d ≠ bb.
Proof.
  unfold idom_edges. rewrite list_elem_of_omap. split.
  - intros (bb' & Hbb' & Hedge).
    destruct (immediate_dominator cfg bb') as [d'|] eqn:Hd'; simpl in Hedge; [|done].
    destruct (decide (d' ≠ bb')); [|done]. by injection Hedge as -> ->.
  - intros (Hbb & Hd & Hne). exists bb. split; [done|].
    rewrite Hd. simpl. by rewrite decide_True.
Qed.

Lemma elem_of_ipdom_edges func bb d :
  (bb, d) ∈ ipdom_edges cfg func
  ↔ bb ∈ basic_blocks func ∧ immediate_post_dominator cfg bb = Some d ∧ d ≠ bb.
Proof.
  unfold ipdom_edges. rewrite list_elem_of_omap. split.
  - intros (bb' & Hbb' & Hedge).
    destruct (immediate_post_dominator cfg bb') as [d'|] eqn:Hd'; simpl in Hedge; [|done].
    destruct (decide (d' ≠ bb')); [|done]. by injection Hedge as -> ->.
  - intros (Hbb & Hd & Hne). exists bb. split; [done|].
    rewrite Hd. simpl. by rewrite decide_True.
Qed.
End MermaidFacts.

(** With no function at 0x1000, the dominator-tree export does not return
    the bare line: it returns the line between the two fence lines. *)
Lemma generate_dominator_mermaid_not_bare :
  generate_dominator_mermaid Samples.loop Samples.no_functions 4096
  ≠ "No function found at address 0x1000"
  ∧ generate_dominator_mermaid Samples.loop Samples.no_functions 4096
    = "```mermaid" +:+ nl +:+ "No function found at address 0x1000" +:+ nl +:+ "```".
Proof. split; [by vm_compute|reflexivity]. Qed.

(** C4, as the code has it.  When no function exists at the address, each
    of the seven text exports returns three lines: the opening fence
    "```mermaid", the line "No function found at address 0x<addr>" (which
    replaces the diagram header), and the closing fence. *)
Theorem exports_without_function {block : Type} `{Countable block}
    (cfg : Analysis block) (get_function_at : N → option (Function block))
    (set_iter : gset block → list block) (function_address : N) :
  get_function_at function_address = None →
  let diagnostic :=
    "```mermaid" +:+ nl +:+ "No function found at address " +:+ hex function_address
      +:+ nl +:+ "```" in
  generate_post_dominator_mermaid cfg get_function_at function_address = diagnostic
  ∧ generate_dominator_mermaid cfg get_function_at function_address = diagnostic
  ∧ generate_dominance_frontier_mermaid cfg get_function_at function_address = diagnostic
  ∧ generate_post_dominance_frontier_mermaid cfg get_function_at function_address
    = diagnostic
  ∧ (∀ fuel variable_blocks,
       generate_iterated_dominance_frontier_mermaid cfg get_function_at set_iter
         fuel function_address variable_blocks = Some diagnostic)
  ∧ generate_immediate_dominator_mermaid cfg get_function_at function_address = diagnostic
  ∧ generate_immediate_post_dominator_mermaid cfg get_function_at function_address
    = diagnostic.
Proof.
  intros Hnone diagnostic.
  unfold generate_post_dominator_mermaid, generate_dominator_mermaid,
    generate_dominance_frontier_mermaid, generate_post_dominance_frontier_mermaid,
    generate_iterated_dominance_frontier_mermaid, generate_immediate_dominator_mermaid,
    generate_immediate_post_dominator_mermaid.
  rewrite Hnone. by split_and!.
Qed.

Lemma exports_without_function_witness :
  generate_dominator_mermaid Samples.loop Samples.no_functions 4096
  = "```mermaid" +:+ nl +:+ "No function found at address 0x1000" +:+ nl +:+ "```".
Proof.
  destruct (exports_without_function Samples.loop Samples.no_functions elements 4096 eq_refl)
    as (_ & Hdom & _).
  exact Hdom.
Defined.

(** C10.  In the immediate-dominator export the statements after the node
    declarations are the edge statements of the pairs (d, bb), for the
    blocks [bb] of the function whose immediate dominator [d] exists and
    is not [bb] itself; a block that is its own immediate dominator adds
    nothing.  So no statement joins a block to itself, and when blocks
    have different start addresses no statement has the same name on
    both sides.  The immediate-post-dominator export is alike, with the
    pairs (bb, d). *)
Theorem immediate_exports_no_self_loop {block : Type} `{Countable block}
    (cfg : Analysis block) (get_function_at : N → option (Function block))
    (function_address : N) (func : Function block) :
  get_function_at function_address = Some func →
  (generate_immediate_dominator_mermaid cfg get_function_at function_address
   = fenced (add_all_blocks cfg header func
             +:+ join (edge_statement cfg "idom" <$> idom_edges cfg func))
   ∧ generate_immediate_post_dominator_mermaid cfg get_function_at function_address
     = fenced (add_all_blocks cfg header func
               +:+ join (edge_statement cfg "ipdom" <$> ipdom_edges cfg func)))
  ∧ (∀ d bb, (d, bb) ∈ idom_edges cfg func
             ↔ bb ∈ basic_blocks func ∧ immediate_dominator cfg bb = Some d ∧ d ≠ bb)
  ∧ (∀ bb d, (bb, d) ∈ ipdom_edges cfg func
             ↔ bb ∈ basic_blocks func ∧ immediate_post_dominator cfg bb = Some d ∧ d ≠ bb)
  ∧ (∀ acc bb, immediate_dominator cfg bb = Some bb → idom_statement cfg acc bb = acc)
  ∧ (∀ acc bb, immediate_post_dominator cfg bb = Some bb →
               ipdom_statement cfg acc bb = acc)
  ∧ ((∀ x y, start cfg x = start cfg y → x = y) →
     ∀ e, e ∈ idom_edges cfg func ∨ e ∈ ipdom_edges cfg func → BB cfg e.1 ≠ BB cfg e.2).
Proof.
  intros Hfunc. split_and!.
  - unfold generate_immediate_dominator_mermaid. rewrite Hfunc.
    rewrite foldl_idom_statement. by destruct func.
  - unfold generate_immediate_post_dominator_mermaid. rewrite Hfunc.
    rewrite foldl_ipdom_statement. by destruct func.
  - apply elem_of_idom_edges.
  - apply elem_of_ipdom_edges.
  - intros acc bb Hself. unfold idom_statement. rewrite Hself.
    by rewrite decide_False by (by intros ?).
  - intros acc bb Hself. unfold ipdom_statement. rewrite Hself.
    by rewrite decide_False by (by intros ?).
  - intros Hstart [x y] [He|He] Heq%(BB_inj cfg Hstart); simpl in Heq; subst.
    + by apply elem_of_idom_edges in He as (_ & _ & ?).
    + by apply elem_of_ipdom_edges in He as (_ & _ & ?).
Qed.

Lemma immediate_exports_no_self_loop_witness :
  immediate_dominator Samples.self_dominated 0 = Some 0
  ∧ generate_immediate_dominator_mermaid Samples.self_dominated
      Samples.self_dominated_view 4096
    = "```mermaid" +:+ nl +:+ "graph TD;" +:+ nl +:+ "BB0x1000((0x1000))" +:+ nl
        +:+ nl +:+ "```".
Proof.
  split; [reflexivity|].
  destruct (immediate_exports_no_self_loop Samples.self_dominated
              Samples.self_dominated_view 4096 Samples.self_dominated_function eq_refl)
    as ([Hidom _] & _).
  rewrite Hidom. reflexivity.
Defined.

(** * Worked examples *)

Example loop_post_dominators :
  ∃ g, PostDominatorsSlice_get_flowgraph Samples.loop 2 (Some 0) = Some g
       ∧ graph_blocks g = [0; 1; 3] ∧ graph_edges g = [(0, 1); (1, 2)].
Proof. eexists. split; [reflexivity|]. split; reflexivity. Qed.

Example loop_strict_dominators :
  ∃ g, StrictDominatorsSlice_get_flowgraph Samples.loop 1 (Some 3) = Some g
       ∧ graph_blocks g = [1; 0] ∧ graph_edges g = [(1, 0)].
Proof. eexists. split; [reflexivity|]. split; reflexivity. Qed.

Example loop_post_dominator_tree :
  ∃ g, FullPostDominatorTreeSlice_get_flowgraph Samples.loop 3 (Some Samples.loop_function)
       = Some g
       ∧ graph_blocks g = [3; 1; 0; 2] ∧ graph_edges g = [(0, 1); (1, 2); (1, 3)].
Proof. eexists. split; [reflexivity|]. split; reflexivity. Qed.

Example loop_immediate_dominator_export :
  generate_immediate_dominator_mermaid Samples.loop Samples.loop_view 4096
  = join [ "```mermaid"; nl;
           "graph TD;"; nl;
           "BB0x1000((0x1000))"; nl;
           "BB0x1010((0x1010))"; nl;
           "BB0x1020((0x1020))"; nl;
           "BB0x1030((0x1030))"; nl;
           "BB0x1000 -->|idom| BB0x1010"; nl;
           "BB0x1010 -->|idom| BB0x1020"; nl;
           "BB0x1010 -->|idom| BB0x1030"; nl;
           nl; "```" ].
Proof. reflexivity. Qed.

Example one_frontier_worklist :
  idf_worklist Samples.one_frontier 2 ∅ [0] = Some {[1]}.
Proof. vm_compute. reflexivity. Qed.

Example one_frontier_view_graph :
  ∃ g, IteratedDominanceFrontierSlice_get_flowgraph Samples.one_frontier elements 2 (Some 0)
       = Some g
       ∧ graph_blocks g = [0; 1] ∧ graph_edges g = [(0, 1)].
Proof. eexists. split; [vm_compute; reflexivity|]. split; reflexivity. Qed.

Example one_frontier_export :
  generate_iterated_dominance_frontier_mermaid Samples.one_frontier
    Samples.one_frontier_view elements 2 256 None
  = Some (join [ "```mermaid"; nl;
                 "graph TD;"; nl;
                 "BB0x100((0x100))"; nl;
                 "BB0x200((0x200))"; nl;
                 "style BB0x100 fill:#afa,stroke:#6a6"; nl;
                 "BB0x100 -->|IDF| BB0x200"; nl;
                 "style BB0x200 fill:#faa,stroke:#a66"; nl;
                 nl; "```" ]).
Proof. vm_compute. reflexivity. Qed.

(** * Further properties of the chain views *)

Lemma chain_inj {block : Type} (next : block → option block) b (l l' : list block) :
  chain next b l → chain next b l' → l = l'.
Proof.
  intros Hc. revert l'. induction Hc as [b Hb|b a l Hb Hc IH]; intros l' Hc'.
  - inversion Hc' as [|?? l0 Hb' ?]; [done|congruence].
  - inversion Hc' as [? Hb'|? a' l0 Hb' Hc0]; subst; [congruence|].
    assert (a' = a) as -> by congruence. f_equal. by apply IH.
Qed.

Lemma chain_suffix {block : Type} (next : block → option block) b (l : list block) x :
  chain next b l → x ∈ l → ∃ l', chain next x l' ∧ length l' < length l.
Proof.
  induction 1 as [b Hb|b a l Hb Hc IH]; intros Hx; [by apply elem_of_nil in Hx|].
  apply elem_of_cons in Hx as [->|Hx].
  - exists l. split; [done|simpl; lia].
  - destruct (IH Hx) as (l' & Hl' & Hlen). exists l'. split; [done|simpl; lia].
Qed.

Lemma chain_not_self {block : Type} (next : block → option block) b (l : list block) :
  chain next b l → b ∉ l.
Proof.
  intros Hc Hb. destruct (chain_suffix next b l b Hc Hb) as (l' & Hl' & Hlen).
  rewrite (chain_inj next b l' l Hl' Hc) in Hlen. lia.
Qed.

Lemma DominatorsSlice_walk_returns {block : Type} (cfg : Analysis block)
    fuel (g : FlowGraph block) cur b g' :
  DominatorsSlice_walk cfg fuel g cur (immediate_dominator cfg b) = Some g' →
  ∃ l, chain (immediate_dominator cfg) b l ∧ length l ≤ fuel.
Proof.
  revert g cur b. induction fuel as [|fuel IH]; intros g cur b Hrun;
    destruct (immediate_dominator cfg b) as [a|] eqn:Hb; simpl in Hrun.
  - done.
  - exists []. split; [by apply chain_end|done].
  - apply IH in Hrun as (l & Hl & Hlen). exists (a :: l).
    split; [by eapply chain_step|simpl; lia].
  - exists []. split; [by apply chain_end|simpl; lia].
Qed.

(** X1.  The dominators view returns exactly when following
    [immediate_dominator] from the current block ends within the rounds
    allowed; the graph returned is then the same for every such bound. *)
Theorem DominatorsSlice_returns_iff {block : Type} (cfg : Analysis block)
    (b : block) (fuel : nat) (g : FlowGraph block) :
  DominatorsSlice_get_flowgraph cfg fuel (Some b) = Some g
  ↔ ∃ l, chain (immediate_dominator cfg) b l ∧ length l ≤ fuel
         ∧ g = {| lines := Disassembly b; outgoing := [] |} :: dominator_chain_nodes 0 1 l.
Proof.
  unfold DominatorsSlice_get_flowgraph. simpl. split.
  - intros Hrun. destruct (DominatorsSlice_walk_returns _ _ _ _ _ _ Hrun) as (l & Hl & Hlen).
    exists l. split_and!; [done..|].
    rewrite (DominatorsSlice_walk_chain cfg fuel _ 0 b l Hl Hlen) in Hrun.
    by injection Hrun as <-.
  - intros (l & Hl & Hlen & ->).
    by rewrite (DominatorsSlice_walk_chain cfg fuel _ 0 b l Hl Hlen).
Qed.

(** X2.  For a block with an immediate dominator [a] whose own chain of
    dominators is [l], the strict-dominators view shows [a] followed by
    [l], joined as in the dominators view; the current block itself is
    not shown. *)
Theorem StrictDominatorsSlice_chain_view {block : Type} (cfg : Analysis block)
    (b a : block) (l : list block) (fuel : nat) :
  chain (immediate_dominator cfg) b (a :: l) →
  length l ≤ fuel →
  ∃ g, StrictDominatorsSlice_get_flowgraph cfg fuel (Some b) = Some g
       ∧ graph_blocks g = a :: l
       ∧ length g = S (length l)
       ∧ graph_edges g = (λ i, (S i, i)) <$> seq 0 (length l)
       ∧ b ∉ graph_blocks g.
Proof.
  intros Hc Hfuel. pose proof (chain_not_self _ _ _ Hc) as Hself.
  inversion Hc as [|?? l0 Hb Ha]; subst.
  unfold StrictDominatorsSlice_get_flowgraph. rewrite Hb. simpl.
  rewrite (DominatorsSlice_walk_chain cfg fuel _ 0 a l Ha Hfuel). simpl.
  eexists. split; [done|].
  assert (Hblocks : graph_blocks
            ({| lines := Disassembly a; outgoing := [] |} :: dominator_chain_nodes 0 1 l)
          = a :: l).
  { apply graph_blocks_of_lines. simpl. by rewrite dominator_chain_nodes_lines. }
  split_and!.
  - done.
  - simpl. by rewrite dominator_chain_nodes_length.
  - unfold graph_edges. simpl. apply dominator_chain_nodes_edges.
  - by rewrite Hblocks.
Qed.

Lemma StrictDominatorsSlice_chain_view_witness :
  ∃ g, StrictDominatorsSlice_get_flowgraph Samples.loop 1 (Some 3) = Some g
       ∧ graph_blocks g = [1; 0] ∧ 3 ∉ graph_blocks g.
Proof.
  destruct (StrictDominatorsSlice_chain_view Samples.loop 3 1 [0] 1)
    as (g & Hrun & Hblocks & _ & _ & Hself).
  - apply chain_step with (a := 1); [reflexivity|].
    apply chain_step with (a := 0); [reflexivity|].
    apply chain_end. reflexivity.
  - simpl. lia.
  - exists g. exact (conj Hrun (conj Hblocks Hself)).
Defined.

Section PostChain.
Context {block : Type}.
Variable cfg : Analysis block.

Lemma post_dominator_chain_nodes_lines (b : block) n l :
  lines <$> post_dominator_chain_nodes b n l = Disassembly <$> b :: l.
Proof.
  revert b n. induction l as [|a l IH]; intros b n; simpl; [done|].
  by rewrite IH.
Qed.

Lemma post_dominator_chain_nodes_edges (b : block) n l :
  edges_from n (post_dominator_chain_nodes b n l) = (λ i, (i, S i)) <$> seq n (length l).
Proof.
  revert b n. induction l as [|a l IH]; intros b n; simpl; [done|].
  by rewrite IH.
Qed.

Lemma PostDominatorsSlice_walk_chain fuel (g : FlowGraph block) (b : block) l :
  chain (immediate_post_dominator cfg) b l →
  length l ≤ fuel →
  PostDominatorsSlice_walk cfg fuel (g ++ [ {| lines := Disassembly b; outgoing := [] |} ])
    (length g) (immediate_post_dominator cfg b)
  = Some (g ++ post_dominator_chain_nodes b (length g) l).
Proof.
  intros Hc. revert fuel g.
  induction Hc as [b Hb|b a l Hb Hc IH]; intros fuel g Hfuel.
  - rewrite Hb. by destruct fuel.
  - rewrite Hb. destruct fuel as [|fuel]; simpl in *; [lia|].
    unfold add_outgoing_edge. rewrite alter_app_l by (rewrite length_app; simpl; lia).
    fold (add_outgoing_edge (g ++ [ {| lines := Disassembly b; outgoing := [] |} ])
            (length g) UnconditionalBranch
            (length (g ++ [ {| lines := Disassembly b; outgoing := [] |} ]))).
    rewrite add_outgoing_edge_last.
    replace (length (g ++ [ {| lines := Disassembly b; outgoing := [] |} ]))
      with (length (g ++ [with_edge (UnconditionalBranch, S (length g))
                            {| lines := Disassembly b; outgoing := [] |}]))
      by (rewrite !length_app; done).
    rewrite length_app. simpl. rewrite Nat.add_1_r.
    specialize (IH fuel
      (g ++ [with_edge (UnconditionalBranch, S (length g))
               {| lines := Disassembly b; outgoing := [] |}])).
    rewrite length_app in IH. simpl in IH. rewrite Nat.add_1_r in IH.
    rewrite IH by lia. by rewrite <-(assoc_L (++)).
Qed.
End PostChain.

(** X3.  When following [immediate_post_dominator] from [b] meets the blocks
    [l] and then [None], the post-dominators view shows [b] followed by
    [l], with the edges (0,1), (1,2), ...: each leaves the node of a block
    and enters the node of its immediate post-dominator. *)
Theorem PostDominatorsSlice_chain_view {block : Type} (cfg : Analysis block)
    (b : block) (l : list block) (fuel : nat) :
  chain (immediate_post_dominator cfg) b l →
  length l ≤ fuel →
  ∃ g, PostDominatorsSlice_get_flowgraph cfg fuel (Some b) = Some g
       ∧ lines <$> g = Disassembly <$> b :: l
       ∧ graph_edges g = (λ i, (i, S i)) <$> seq 0 (length l)
       ∧ ∀ s t, (s, t) ∈ graph_edges g →
           ∃ x d, (b :: l) !! s = Some x ∧ (b :: l) !! t = Some d
                  ∧ immediate_post_dominator cfg x = Some d.
Proof.
  intros Hc Hfuel. unfold PostDominatorsSlice_get_flowgraph. simpl.
  pose proof (PostDominatorsSlice_walk_chain cfg fuel [] b l Hc Hfuel) as Hwalk.
  simpl in Hwalk. rewrite Hwalk.
  eexists. split; [done|].
  assert (Hedges : graph_edges (post_dominator_chain_nodes b 0 l)
                   = (λ i, (i, S i)) <$> seq 0 (length l))
    by apply post_dominator_chain_nodes_edges.
  split_and!.
  - apply post_dominator_chain_nodes_lines.
  - done.
  - intros s t. rewrite Hedges. intros (i & [= -> ->] & Hi)%list_elem_of_fmap.
    apply elem_of_seq in Hi.
    destruct (lookup_lt_is_Some_2 (b :: l) (S i)) as [d Hd]; [simpl; lia|].
    destruct (chain_lookup_parent _ _ _ _ _ Hc Hd) as (x & Hx & Hxd).
    by exists x, d.
Qed.

Lemma PostDominatorsSlice_chain_view_witness :
  ∃ g, PostDominatorsSlice_get_flowgraph Samples.loop 2 (Some 0) = Some g
       ∧ lines <$> g = Disassembly <$> [0; 1; 3]
       ∧ graph_edges g = [(0, 1); (1, 2)].
Proof.
  destruct (PostDominatorsSlice_chain_view Samples.loop 0 [1; 3] 2)
    as (g & Hrun & Hlines & Hedges & _).
  - apply chain_step with (a := 1); [reflexivity|].
    apply chain_step with (a := 3); [reflexivity|].
    apply chain_end. reflexivity.
  - simpl. lia.
  - exists g. exact (conj Hrun (conj Hlines Hedges)).
Defined.

(** * Children and frontier views *)

Lemma one_hop_fold {block : Type} (n0 : FlowGraphNode block) (rest : FlowGraph block)
    (l : list block) :
  foldl (λ flowgraph child,
           let '(flowgraph, child_node) := get_block_node flowgraph (Some child) in
           add_outgoing_edge flowgraph 0 UnconditionalBranch child_node)
        (n0 :: rest) l
  = {| lines := lines n0;
       outgoing := outgoing n0
                   ++ ((λ i, (UnconditionalBranch, i)) <$> seq (S (length rest)) (length l)) |}
    :: rest ++ ((λ b, {| lines := Disassembly b; outgoing := [] |}) <$> l).
Proof.
  revert n0 rest. induction l as [|b l IH]; intros n0 rest.
  - simpl. rewrite !app_nil_r. by destruct n0.
  - change (foldl ?f (n0 :: rest) (b :: l))
      with (foldl f (with_edge (UnconditionalBranch, S (length rest)) n0
                     :: (rest ++ [ {| lines := Disassembly b; outgoing := [] |} ])) l).
    rewrite IH. simpl. rewrite length_app, <-!(assoc_L (++)). simpl.
    by rewrite Nat.add_1_r.
Qed.

Lemma edges_from_fresh {block : Type} k (l : list block) :
  edges_from k ((λ b, {| lines := Disassembly b; outgoing := [] |}) <$> l) = [].
Proof. revert k. induction l as [|b l IH]; intros k; simpl; [done|apply IH]. Qed.

Lemma one_hop_view_shape {block : Type} (members : block → list block) (cb : block) :
  lines <$> one_hop_view members (Some cb) = Disassembly <$> cb :: members cb
  ∧ graph_edges (one_hop_view members (Some cb))
    = (λ i, (0, i)) <$> seq 1 (length (members cb)).
Proof.
  pose proof (one_hop_fold {| lines := Disassembly cb; outgoing := [] |} [] (members cb))
    as Hfold.
  change (foldl _ _ _) with (one_hop_view members (Some cb)) in Hfold.
  rewrite Hfold. simpl. split.
  - f_equal. rewrite <-list_fmap_compose. done.
  - unfold graph_edges. simpl. rewrite edges_from_fresh, app_nil_r.
    rewrite <-list_fmap_compose. done.
Qed.

(** X5.  The children views and the frontier views show the current block
    followed by one node per listed member, in the order of the list and
    without merging repeated members; every edge leaves the node of the
    current block, one per member. *)
Theorem children_and_frontier_views {block : Type} `{Countable block}
    (cfg : Analysis block) (cb : block) :
  let shows (g : FlowGraph block) (members : list block) :=
    lines <$> g = Disassembly <$> cb :: members
    ∧ graph_edges g = (λ i, (0, i)) <$> seq 1 (length members) in
  shows (PostDominatorTreeChildrenSlice_get_flowgraph cfg (Some cb))
        (post_dominator_tree_children cfg cb)
  ∧ shows (PostDominanceFrontierSlice_get_flowgraph cfg (Some cb))
          (post_dominance_frontier cfg cb)
  ∧ shows (DominanceFrontierSlice_get_flowgraph cfg (Some cb))
          (dominance_frontier cfg cb)
  ∧ shows (DominatorTreeChildrenSlice_get_flowgraph cfg (Some cb))
          (dominator_tree_children cfg cb).
Proof. intros shows. split_and!; apply one_hop_view_shape. Qed.

(** * The members of the iterated frontier *)

Section Closure.
Context {block : Type} `{Countable block}.
Variable cfg : Analysis block.
Implicit Types (fr F : gset block) (wl seeds : list block).

(** A run adds only blocks of a set that holds the frontiers of the
    worklist's blocks and of its own members. *)
Lemma idf_worklist_within (P : block → Prop) fuel fr wl F :
  (∀ x, x ∈ fr → P x) →
  (∀ b y, b ∈ wl → y ∈ dominance_frontier cfg b → P y) →
  (∀ x y, P x → y ∈ dominance_frontier cfg x → P y) →
  idf_worklist cfg fuel fr wl = Some F →
  ∀ x, x ∈ F → P x.
Proof.
  intros Hfr Hwl HP. revert fr wl Hfr Hwl.
  induction fuel as [|fuel IH]; intros fr [|b wl] Hfr Hwl Hrun; simpl in Hrun; try done.
  - by injection Hrun as <-.
  - by injection Hrun as <-.
  - destruct (idf_visit_foldl fr wl (dominance_frontier cfg b)) as (new & Hst & _ & Hnew).
    rewrite Hst in Hrun. simpl in Hrun. eapply IH; [| |done].
    + intros x [Hx|Hx%elem_of_list_to_set]%elem_of_union; [by apply Hfr|].
      eapply Hwl; [apply list_elem_of_here|done].
    + intros b' y [Hb'|Hb']%elem_of_app Hy.
      * eapply Hwl; [by apply list_elem_of_further|done].
      * apply Hnew in Hb' as [Hb' _]. eapply HP; [|done].
        eapply Hwl; [apply list_elem_of_here|done].
Qed.

Lemma idf_worklist_reaches fuel seeds F s x :
  idf_worklist cfg fuel ∅ seeds = Some F →
  s ∈ seeds ∨ s ∈ F → tc (in_frontier_of cfg) s x → x ∈ F.
Proof.
  intros (pops & Hrun)%idf_worklist_pops_of_run.
  apply idf_worklist_pops_spec in Hrun as (pushed & -> & _ & _ & -> & Hclosed & _).
  rewrite (left_id_L ∅ (∪)). rewrite (left_id_L ∅ (∪)) in Hclosed.
  intros Hs Htc.
  assert (Hpopped : s ∈ seeds ++ pushed).
  { apply elem_of_app. destruct Hs as [?|?%elem_of_list_to_set]; auto. }
  clear Hs. induction Htc as [s x Hsx|s y x Hsy _ IH]; [by eapply Hclosed|].
  pose proof (Hclosed s y Hpopped Hsy) as Hy. apply elem_of_list_to_set in Hy.
  apply IH, elem_of_app. by right.
Qed.
End Closure.

(** X8.  The frontier the worklist loop returns for the seeds [seeds] is the
    set of blocks reached from a seed by one or more steps of
    [dominance_frontier]. *)
Theorem idf_worklist_closure {block : Type} `{Countable block} (cfg : Analysis block)
    (fuel : nat) (seeds : list block) (F : gset block) :
  idf_worklist cfg fuel ∅ seeds = Some F →
  ∀ x, x ∈ F ↔ ∃ s, s ∈ seeds ∧ tc (in_frontier_of cfg) s x.
Proof.
  intros Hrun x. split.
  - revert x. eapply idf_worklist_within; [| | |exact Hrun].
    + by intros x ?%not_elem_of_empty.
    + intros b y Hb Hy. exists b. split; [done|]. by apply tc_once.
    + intros x y (s & Hs & Hsx) Hy. exists s. split; [done|].
      eapply tc_r; [done|]. exact Hy.
  - intros (s & Hs & Hsx). eapply idf_worklist_reaches; [done| |done]. by left.
Qed.

Lemma idf_worklist_closure_witness :
  idf_worklist Samples.loop 2 ∅ [2] = Some {[1]}
  ∧ (1 ∈ ({[1]} : gset nat) ↔ ∃ s, s ∈ [2] ∧ tc (in_frontier_of Samples.loop) s 1).
Proof.
  assert (Hrun : idf_worklist Samples.loop 2 ∅ [2] = Some {[1]})
    by (vm_compute; reflexivity).
  split; [exact Hrun|].
  exact (idf_worklist_closure Samples.loop 2 [2] {[1]} Hrun 1).
Defined.

(** X9.  The frontier returned does not depend on the order of the seeds, on
    their repetition, or on the number of rounds allowed. *)
Theorem idf_worklist_order_independent {block : Type} `{Countable block}
    (cfg : Analysis block) (fuel fuel' : nat) (seeds seeds' : list block)
    (F F' : gset block) :
  (∀ x, x ∈ seeds ↔ x ∈ seeds') →
  idf_worklist cfg fuel ∅ seeds = Some F →
  idf_worklist cfg fuel' ∅ seeds' = Some F' →
  F = F'.
Proof.
  intros Hseeds Hrun Hrun'.
  assert (Hwithin : ∀ fuel1 fuel2 seeds1 seeds2 (F1 F2 : gset block),
    (∀ x, x ∈ seeds1 → x ∈ seeds2) →
    idf_worklist cfg fuel1 ∅ seeds1 = Some F1 →
    idf_worklist cfg fuel2 ∅ seeds2 = Some F2 →
    ∀ x, x ∈ F1 → x ∈ F2).
  { intros fuel1 fuel2 seeds1 seeds2 F1 F2 Hsub Hrun1 Hrun2.
    eapply idf_worklist_within; [| | |exact Hrun1].
    - by intros x ?%not_elem_of_empty.
    - intros b y Hb Hy. eapply idf_worklist_reaches; [exact Hrun2| |by apply tc_once].
      left. by apply Hsub.
    - intros x y Hx Hy. eapply idf_worklist_reaches; [exact Hrun2| |by apply tc_once].
      by right. }
  apply set_eq. intros x. split.
  - eapply Hwithin; [|exact Hrun|exact Hrun']. intros y. apply Hseeds.
  - eapply Hwithin; [|exact Hrun'|exact Hrun]. intros y. apply Hseeds.
Qed.

Lemma idf_worklist_order_independent_witness :
  ∃ F, idf_worklist Samples.loop 3 ∅ [1; 2] = Some F
       ∧ idf_worklist Samples.loop 5 ∅ [2; 1; 2] = Some F.
Proof.
  assert (H1 : idf_worklist Samples.loop 3 ∅ [1; 2] = Some {[1]})
    by (vm_compute; reflexivity).
  destruct (idf_worklist Samples.loop 5 ∅ [2; 1; 2]) as [F'|] eqn:H2;
    [|vm_compute in H2; discriminate H2].
  exists {[1]}. split; [exact H1|]. f_equal. symmetry.
  apply (idf_worklist_order_independent Samples.loop 3 5 [1; 2] [2; 1; 2] {[1]} F');
    [|exact H1|exact H2].
  intros x. rewrite !elem_of_cons, !elem_of_nil. tauto.
Defined.

(** * The edges of the full trees *)

Section TreeEdges.
Context {block : Type} `{Countable block}.
Variable children : block → list block.
Implicit Types (g : FlowGraph block) (D : list block) (E : list (nat * nat)).

Lemma edges_from_add_outgoing_edge k g i kind target :
  i < length g →
  edges_from k (add_outgoing_edge g i kind target) ≡ₚ (k + i, target) :: edges_from k g.
Proof.
  unfold add_outgoing_edge. revert k i.
  induction g as [|n g IH]; intros k [|i] Hi; simpl in Hi; try lia.
  - change (alter ?f 0 (n :: g)) with (f n :: g). cbn [edges_from with_edge outgoing].
    rewrite fmap_app, Nat.add_0_r, <-(assoc_L (++)). simpl.
    by rewrite <-Permutation_middle.
  - change (alter ?f (S i) (n :: g)) with (n :: alter f i g). cbn [edges_from].
    rewrite IH by lia. rewrite <-Permutation_middle.
    by replace (S k + i) with (k + S i) by lia.
Qed.

Lemma graph_edges_add_outgoing_edge g i kind target :
  i < length g →
  graph_edges (add_outgoing_edge g i kind target) ≡ₚ (i, target) :: graph_edges g.
Proof. apply (edges_from_add_outgoing_edge 0). Qed.

Lemma graph_edges_fresh g (b : block) :
  graph_edges (g ++ [ {| lines := Disassembly b; outgoing := [] |} ]) = graph_edges g.
Proof. unfold graph_edges. rewrite edges_from_app. simpl. by rewrite app_nil_r. Qed.

Lemma parent_to_child_more (texts more : list (Lines block)) e :
  parent_to_child children texts e → parent_to_child children (texts ++ more) e.
Proof.
  intros (p & c & Hp & Hc & Hpc). exists p, c.
  split_and!; [by apply lookup_app_l_Some..|done].
Qed.

Lemma for_each_child_edges
    (recurse : FlowGraph block → block → nat → option (FlowGraph block)) pn p cs :
  (∀ g c cn g', c ∈ cs → cn < length g →
     (lines <$> g) !! cn = Some (Disassembly c) →
     recurse g c cn = Some g' → ∃ D E, adds children g g' D E) →
  ∀ g g', pn < length g →
    (lines <$> g) !! pn = Some (Disassembly p) →
    (∀ c, c ∈ cs → c ∈ children p) →
    for_each_child recurse pn cs g = Some g' → ∃ D E, adds children g g' D E.
Proof.
  induction cs as [|c cs IH]; intros Hrec g g' Hpn Hp Hcs Hrun; simpl in Hrun.
  - injection Hrun as <-. exists [], []. unfold adds. simpl.
    rewrite !app_nil_r. by split_and!.
  - set (g2 := add_outgoing_edge (g ++ [ {| lines := Disassembly c; outgoing := [] |} ])
                 pn UnconditionalBranch (length g)) in *.
    assert (Hlines2 : lines <$> g2 = (lines <$> g) ++ [Disassembly c]).
    { unfold g2. by rewrite add_outgoing_edge_lines, fmap_app. }
    assert (Hlen2 : length g2 = S (length g)).
    { unfold g2. rewrite add_outgoing_edge_length, length_app. simpl. lia. }
    assert (Hedges2 : graph_edges g2 ≡ₚ (pn, length g) :: graph_edges g).
    { unfold g2. rewrite graph_edges_add_outgoing_edge by (rewrite length_app; lia).
      by rewrite graph_edges_fresh. }
    destruct (recurse g2 c (length g)) as [g3|] eqn:Hc; [|done].
    apply Hrec in Hc as (Dc & Ec & Hlines3 & Hedges3 & Htargets3 & Hok3);
      [|apply list_elem_of_here|lia|].
    2:{ rewrite Hlines2. rewrite lookup_app_r by (by rewrite length_fmap).
        by rewrite length_fmap, Nat.sub_diag. }
    assert (Hlen3 : length g3 = S (length g) + length Dc).
    { rewrite <-(length_fmap lines g3), Hlines3, length_app, !length_fmap. lia. }
    apply IH in Hrun as (Dcs & Ecs & Hlines' & Hedges' & Htargets' & Hok').
    2:{ intros ????? ?? Hr. eapply Hrec; [by apply list_elem_of_further|done..]. }
    2:{ lia. }
    2:{ rewrite Hlines3, Hlines2. by do 2 apply lookup_app_l_Some. }
    2:{ intros; by apply Hcs, list_elem_of_further. }
    exists (c :: Dc ++ Dcs), ((pn, length g) :: Ec ++ Ecs). split_and!.
    + rewrite Hlines', Hlines3, Hlines2, fmap_cons, fmap_app.
      rewrite <-!(assoc_L (++)). done.
    + rewrite Hedges', Hedges3, Hedges2. simpl.
      by rewrite <-Permutation_middle, <-(assoc_L (++)).
    + rewrite fmap_cons, fmap_app, Htargets3, Htargets', Hlen2, Hlen3. simpl.
      rewrite length_app, seq_app. do 3 f_equiv; try (f_equal; lia).
    + assert (Hmore : ∃ more, lines <$> g' = ((lines <$> g) ++ [Disassembly c]) ++ more).
      { exists ((Disassembly <$> Dc) ++ (Disassembly <$> Dcs)).
        by rewrite Hlines', Hlines3, Hlines2, <-!(assoc_L (++)). }
      destruct Hmore as (more & Hmore).
      constructor; [|apply Forall_app; split; [|done]].
      * exists p, c. simpl. rewrite Hmore. split_and!.
        -- by do 2 apply lookup_app_l_Some.
        -- apply lookup_app_l_Some. rewrite lookup_app_r by (by rewrite length_fmap).
           by rewrite length_fmap, Nat.sub_diag.
        -- apply Hcs, list_elem_of_here.
      * eapply Forall_impl; [exact Hok3|]. intros e He.
        rewrite Hlines'. by apply parent_to_child_more.
Qed.

Lemma add_children_edges fuel g b pn g' :
  pn < length g →
  (lines <$> g) !! pn = Some (Disassembly b) →
  add_children children fuel g b pn = Some g' → ∃ D E, adds children g g' D E.
Proof.
  revert g b pn g'. induction fuel as [|fuel IH]; intros g b pn g' Hpn Hb Hrun; [done|].
  simpl in Hrun. eapply (for_each_child_edges _ pn b); [|done..].
  intros g0 c cn g0' _ Hcn Hc Hr. by eapply IH.
Qed.

Lemma full_tree_edges fuel root g :
  add_children children fuel [ {| lines := Disassembly root; outgoing := [] |} ] root 0
    = Some g →
  length (graph_edges g) = length g - 1
  ∧ (graph_edges g).*2 ≡ₚ seq 1 (length g - 1)
  ∧ Forall (parent_to_child children (lines <$> g)) (graph_edges g).
Proof.
  intros Hrun.
  apply add_children_edges in Hrun; [|simpl; lia|done].
  destruct Hrun as (D & E & Hlines & Hedges & Htargets & Hok).
  assert (Hlen : length g - 1 = length D).
  { rewrite <-(length_fmap lines g), Hlines, length_app, !length_fmap. simpl. lia. }
  simpl in Hedges, Htargets. rewrite Hlen, Hedges. split_and!.
  - by rewrite <-(length_fmap snd), Htargets, length_seq.
  - done.
  - eapply Forall_impl; [exact Hok|]. done.
Qed.
End TreeEdges.

(** X6.  A full-tree view that returns gives a tree: one edge fewer than
    nodes (none in the empty graph), exactly one edge into every node but
    the first, and every edge from the node of a block to the node of one
    of its tree children. *)
Theorem full_tree_views_are_trees {block : Type} `{Countable block}
    (cfg : Analysis block) (fuel : nat) (function : option (Function block))
    (g : FlowGraph block) :
  let tree (children : block → list block) :=
    length (graph_edges g) = length g - 1
    ∧ (graph_edges g).*2 ≡ₚ seq 1 (length g - 1)
    ∧ Forall (parent_to_child children (lines <$> g)) (graph_edges g) in
  (FullDominatorTreeSlice_get_flowgraph cfg fuel function = Some g →
   tree (dominator_tree_children cfg))
  ∧ (FullPostDominatorTreeSlice_get_flowgraph cfg fuel function = Some g →
     tree (post_dominator_tree_children cfg)).
Proof.
  intros tree.
  assert (Hempty : ∀ children, Some [] = Some g → tree children).
  { intros children [= <-]. unfold tree. simpl. split_and!; [done..|constructor]. }
  unfold FullDominatorTreeSlice_get_flowgraph, FullPostDominatorTreeSlice_get_flowgraph.
  destruct function as [function|]; [|by split; apply Hempty]. split.
  - destruct (basic_blocks function) as [|root rest]; [apply Hempty|].
    simpl. apply full_tree_edges.
  - destruct (filter _ (basic_blocks function)) as [|root rest]; [apply Hempty|].
    simpl. apply full_tree_edges.
Qed.

Lemma full_tree_views_are_trees_witness :
  ∃ g, FullPostDominatorTreeSlice_get_flowgraph Samples.loop 3 (Some Samples.loop_function)
       = Some g
       ∧ length g = 4
       ∧ length (graph_edges g) = length g - 1
       ∧ (graph_edges g).*2 ≡ₚ seq 1 (length g - 1).
Proof.
  destruct (FullPostDominatorTreeSlice_get_flowgraph Samples.loop 3
              (Some Samples.loop_function)) as [g|] eqn:Hrun;
    [|vm_compute in Hrun; discriminate Hrun].
  exists g. split; [reflexivity|].
  destruct (full_tree_views_are_trees Samples.loop 3 (Some Samples.loop_function) g)
    as [_ Htree].
  destruct (Htree Hrun) as (Hcount & Htargets & _).
  split; [|exact (conj Hcount Htargets)].
  vm_compute in Hrun. injection Hrun as <-. reflexivity.
Defined.

(** X10.  The iterated-dominance-frontier view, whatever the order in which a
    set is iterated: when the worklist loop returns the frontier [F] for
    the current block, the view shows the current block followed by the
    members of [F], each once; these are the blocks reached from the
    current block by one or more steps of [dominance_frontier]; and every
    edge leaves the node of the current block, one per member. *)
Theorem IteratedDominanceFrontierSlice_view {block : Type} `{Countable block}
    (cfg : Analysis block) (set_iter : gset block → list block)
    (fuel : nat) (cb : block) (F : gset block) :
  (∀ s, set_iter s ≡ₚ elements s) →
  idf_worklist cfg fuel ∅ [cb] = Some F →
  ∃ g, IteratedDominanceFrontierSlice_get_flowgraph cfg set_iter fuel (Some cb) = Some g
       ∧ lines <$> g = Disassembly <$> cb :: set_iter F
       ∧ NoDup (set_iter F)
       ∧ (∀ x, x ∈ set_iter F ↔ tc (in_frontier_of cfg) cb x)
       ∧ graph_edges g = (λ i, (0, i)) <$> seq 1 (size F).
Proof.
  intros Hiter Hrun. unfold IteratedDominanceFrontierSlice_get_flowgraph.
  cbv beta iota zeta delta [get_block_node app length fst snd].
  rewrite (set_iter_singleton set_iter cb Hiter), Hrun.
  pose proof (one_hop_fold {| lines := Disassembly cb; outgoing := [] |} [] (set_iter F))
    as Hfold.
  eexists. split; [reflexivity|].
  assert (Hsize : length (set_iter F) = size F) by by rewrite Hiter.
  split_and!.
  - etrans; [exact (f_equal (fmap lines) Hfold)|].
    simpl. f_equal. by rewrite <-list_fmap_compose.
  - rewrite Hiter. apply NoDup_elements.
  - intros x. rewrite Hiter, elem_of_elements. split.
    + revert x. eapply idf_worklist_within; [| | |exact Hrun].
      * by intros x ?%not_elem_of_empty.
      * intros b y ->%list_elem_of_singleton Hy. by apply tc_once.
      * intros x y Hx Hy. eapply tc_r; [done|]. exact Hy.
    + intros Hx. eapply idf_worklist_reaches; [done| |done].
      left. apply list_elem_of_here.
  - etrans; [exact (f_equal graph_edges Hfold)|].
    unfold graph_edges. simpl. rewrite edges_from_fresh, app_nil_r, Hsize.
    by rewrite <-list_fmap_compose.
Qed.

Lemma IteratedDominanceFrontierSlice_view_witness :
  ∃ g, IteratedDominanceFrontierSlice_get_flowgraph Samples.loop elements 2 (Some 2)
       = Some g
       ∧ lines <$> g = Disassembly <$> 2 :: elements ({[1]} : gset nat)
       ∧ graph_edges g = (λ i, (0, i)) <$> seq 1 (size ({[1]} : gset nat)).
Proof.
  destruct (IteratedDominanceFrontierSlice_view Samples.loop elements 2 2 {[1]})
    as (g & Hrun & Hlines & _ & _ & Hedges).
  - reflexivity.
  - vm_compute. reflexivity.
  - exists g. exact (conj Hrun (conj Hlines Hedges)).
Defined.

(** * The text of the exports *)

Section ExportText.
Context {block : Type} `{Countable block}.
Variable cfg : Analysis block.

Lemma foldl_append {A : Type} (f : A → string) (acc : string) (l : list A) :
  foldl (λ acc x, acc +:+ f x) acc l = acc +:+ join (f <$> l).
Proof.
  revert acc. induction l as [|x l IH]; intros acc; simpl; [by rewrite append_nil_r|].
  by rewrite IH, append_assoc.
Qed.

Lemma add_all_blocks_join acc (func : Function block) :
  add_all_blocks cfg acc func = acc +:+ join (node_decl cfg <$> basic_blocks func).
Proof. apply foldl_append. Qed.

Lemma tree_statements_join (children : block → list block) acc (func : Function block) :
  tree_statements cfg children acc func
  = acc +:+ join ((λ bb, node_decl cfg bb
                         +:+ join ((λ c, plain_edge_statement cfg (bb, c)) <$> children bb))
                  <$> basic_blocks func).
Proof.
  unfold tree_statements. revert acc.
  induction (basic_blocks func) as [|bb bbs IH]; intros acc; simpl;
    [by rewrite append_nil_r|].
  rewrite IH, (foldl_append (λ c, plain_edge_statement cfg (bb, c))).
  by rewrite !append_assoc.
Qed.

Lemma frontier_statements_join (members : block → list block) label acc
    (func : Function block) :
  frontier_statements cfg members label acc func
  = acc +:+ join ((λ bb, join ((λ m, edge_statement cfg label (bb, m)) <$> members bb))
                  <$> basic_blocks func).
Proof.
  unfold frontier_statements. revert acc.
  induction (basic_blocks func) as [|bb bbs IH]; intros acc; simpl;
    [by rewrite append_nil_r|].
  rewrite IH, (foldl_append (λ m, edge_statement cfg label (bb, m))).
  by rewrite !append_assoc.
Qed.

Lemma add_block_at_spec addr (bbs : list block) (blocks : gset block) x :
  x ∈ add_block_at cfg addr bbs blocks ↔ x ∈ blocks ∨ first_at cfg bbs addr x.
Proof.
  induction bbs as [|bb bbs IH]; simpl.
  - split; [by left|]. intros [?|(before & after & Heq & _)]; [done|].
    by destruct before.
  - destruct (decide (start cfg bb = addr)) as [Hbb|Hbb].
    + rewrite elem_of_union, elem_of_singleton. split.
      * intros [->|?]; [|by left]. right. exists [], bbs.
        split; [done|split; [done|constructor]].
      * intros [?|(before & after & Heq & Hx & Hbefore)]; [by right|].
        destruct before as [|y before]; simplify_eq/=; [by left|].
        by apply Forall_cons in Hbefore as [? _].
    + rewrite IH. split.
      * intros [?|(before & after & -> & Hx & Hbefore)]; [by left|].
        right. exists (bb :: before), after.
        split; [done|split; [done|by constructor]].
      * intros [?|(before & after & Heq & Hx & Hbefore)]; [by left|].
        destruct before as [|y before]; simplify_eq/=; try done.
        right. exists before, after.
        split; [done|split; [done|by apply Forall_cons in Hbefore as [_ ?]]].
Qed.

Lemma seed_blocks_spec (func : Function block) (variable_blocks : list N) x :
  x ∈ seed_blocks cfg func variable_blocks
  ↔ ∃ addr, addr ∈ variable_blocks ∧ first_at cfg (basic_blocks func) addr x.
Proof.
  unfold seed_blocks.
  assert (Hgen : ∀ blocks : gset block,
    x ∈ foldl (λ blocks addr, add_block_at cfg addr (basic_blocks func) blocks)
              blocks variable_blocks
    ↔ x ∈ blocks
      ∨ ∃ addr, addr ∈ variable_blocks ∧ first_at cfg (basic_blocks func) addr x).
  { induction variable_blocks as [|a vbs IH]; intros blocks; simpl.
    - split; [by left|]. by intros [?|(? & ?%elem_of_nil & _)].
    - rewrite IH, add_block_at_spec. split.
      + intros [[?|?]|(addr & Haddr & Hx)]; [by left| |].
        * right. exists a. split; [apply list_elem_of_here|done].
        * right. exists addr. split; [by apply list_elem_of_further|done].
      + intros [?|(addr & [->|Haddr]%elem_of_cons & Hx)]; [by left; left|by left; right|].
        right. by exists addr. }
  rewrite Hgen. split; [|by right]. by intros [?%not_elem_of_empty|?].
Qed.
End ExportText.


Lemma set_iter_empty {block : Type} `{Countable block} (set_iter : gset block → list block) :
  (∀ s, set_iter s ≡ₚ elements s) → set_iter ∅ = [].
Proof. intros Hiter. apply Permutation_nil_r. by rewrite Hiter, elements_empty. Qed.

(** X12.  With a function at the address, the two tree exports are the fence
    around the header and, for each block in order, its node declaration
    followed by one edge statement per tree child; the two frontier
    exports are the fence around the header, the node declarations of all
    blocks, and then, for each block in order, one labelled edge statement
    per frontier member. *)
Theorem tree_and_frontier_exports {block : Type} `{Countable block}
    (cfg : Analysis block) (get_function_at : N → option (Function block))
    (function_address : N) (func : Function block) :
  get_function_at function_address = Some func →
  let tree (children : block → list block) :=
    fenced (header +:+ join ((λ bb, node_decl cfg bb
                                    +:+ join ((λ c, plain_edge_statement cfg (bb, c))
                                              <$> children bb))
                             <$> basic_blocks func)) in
  let frontier (members : block → list block) (label : string) :=
    fenced (header +:+ join (node_decl cfg <$> basic_blocks func)
                   +:+ join ((λ bb, join ((λ m, edge_statement cfg label (bb, m))
                                          <$> members bb))
                             <$> basic_blocks func)) in
  generate_dominator_mermaid cfg get_function_at function_address
  = tree (dominator_tree_children cfg)
  ∧ generate_post_dominator_mermaid cfg get_function_at function_address
    = tree (post_dominator_tree_children cfg)
  ∧ generate_dominance_frontier_mermaid cfg get_function_at function_address
    = frontier (dominance_frontier cfg) "frontier"
  ∧ generate_post_dominance_frontier_mermaid cfg get_function_at function_address
    = frontier (post_dominance_frontier cfg) "post frontier".
Proof.
  intros Hfunc tree frontier.
  unfold generate_dominator_mermaid, generate_post_dominator_mermaid,
    generate_dominance_frontier_mermaid, generate_post_dominance_frontier_mermaid.
  rewrite Hfunc. unfold tree, frontier.
  rewrite !tree_statements_join, !frontier_statements_join, !add_all_blocks_join.
  by rewrite !append_assoc.
Qed.

Lemma tree_and_frontier_exports_witness :
  generate_dominator_mermaid Samples.loop Samples.loop_view 4096
  = join [ "```mermaid"; nl;
           "graph TD;"; nl;
           "BB0x1000((0x1000))"; nl;
           "BB0x1000 --> BB0x1010"; nl;
           "BB0x1010((0x1010))"; nl;
           "BB0x1010 --> BB0x1020"; nl;
           "BB0x1010 --> BB0x1030"; nl;
           "BB0x1020((0x1020))"; nl;
           "BB0x1030((0x1030))"; nl;
           nl; "```" ].
Proof.
  destruct (tree_and_frontier_exports Samples.loop Samples.loop_view 4096
              Samples.loop_function eq_refl) as (Hdom & _).
  rewrite Hdom. reflexivity.
Defined.



(** X14.  Addresses at which no block of the function starts select no seed:
    when all given addresses are such, the iterated-frontier export is,
    for every bound on the rounds, the fence around the header and the
    node declarations alone. *)
Theorem iterated_export_unknown_addresses {block : Type} `{Countable block}
    (cfg : Analysis block) (get_function_at : N → option (Function block))
    (set_iter : gset block → list block) (fuel : nat) (function_address : N)
    (variable_blocks : list N) (func : Function block) :
  get_function_at function_address = Some func →
  (∀ s, set_iter s ≡ₚ elements s) →
  (∀ a bb, a ∈ variable_blocks → bb ∈ basic_blocks func → start cfg bb ≠ a) →
  generate_iterated_dominance_frontier_mermaid cfg get_function_at set_iter
    fuel function_address (Some variable_blocks)
  = Some (fenced (header +:+ join (node_decl cfg <$> basic_blocks func))).
Proof.
  intros Hfunc Hiter Hunknown.
  unfold generate_iterated_dominance_frontier_mermaid. rewrite Hfunc.
  rewrite <-add_all_blocks_join.
  destruct variable_blocks as [|a rest]; [done|].
  change (foldl (λ blocks addr, add_block_at cfg addr (basic_blocks func) blocks)
                ∅ (a :: rest))
    with (seed_blocks cfg func (a :: rest)).
  assert (seed_blocks cfg func (a :: rest) = ∅) as ->.
  { apply set_eq. intros x. rewrite seed_blocks_spec. split; [|by intros ?%not_elem_of_empty].
    intros (addr & Haddr & before & after & Hbbs & Hx & _).
    destruct (Hunknown addr x Haddr); [|done].
    rewrite Hbbs. apply elem_of_app. right. apply list_elem_of_here. }
  rewrite (set_iter_empty set_iter Hiter).
  assert (idf_worklist cfg fuel ∅ [] = Some ∅) as -> by by destruct fuel.
  by rewrite (set_iter_empty set_iter Hiter).
Qed.

Lemma iterated_export_unknown_addresses_witness :
  generate_iterated_dominance_frontier_mermaid Samples.one_frontier
    Samples.one_frontier_view elements 0 256 (Some [4096%N])
  = Some (join [ "```mermaid"; nl;
                 "graph TD;"; nl;
                 "BB0x100((0x100))"; nl;
                 "BB0x200((0x200))"; nl;
                 nl; "```" ]).
Proof.
  rewrite (iterated_export_unknown_addresses Samples.one_frontier
             Samples.one_frontier_view elements 0 256 [4096%N]
             {| basic_blocks := [0; 1] |}).
  - reflexivity.
  - reflexivity.
  - reflexivity.
  - intros a bb ->%list_elem_of_singleton Hbb. simpl in Hbb.
    repeat (apply elem_of_cons in Hbb as [->|Hbb]); [done..|by apply elem_of_nil in Hbb].
Defined.

(** X15.  For a function without blocks, every export is the fence around the
    header alone. *)
Theorem exports_of_empty_function {block : Type} `{Countable block}
    (cfg : Analysis block) (get_function_at : N → option (Function block))
    (set_iter : gset block → list block) (function_address : N)
    (func : Function block) :
  get_function_at function_address = Some func →
  basic_blocks func = [] →
  let empty := "```mermaid" +:+ nl +:+ "graph TD;" +:+ nl +:+ nl +:+ "```" in
  generate_post_dominator_mermaid cfg get_function_at function_address = empty
  ∧ generate_dominator_mermaid cfg get_function_at function_address = empty
  ∧ generate_dominance_frontier_mermaid cfg get_function_at function_address = empty
  ∧ generate_post_dominance_frontier_mermaid cfg get_function_at function_address
    = empty
  ∧ (∀ fuel, generate_iterated_dominance_frontier_mermaid cfg get_function_at set_iter
               fuel function_address None = Some empty)
  ∧ generate_immediate_dominator_mermaid cfg get_function_at function_address = empty
  ∧ generate_immediate_post_dominator_mermaid cfg get_function_at function_address
    = empty.
Proof.
  intros Hfunc Hempty empty.
  unfold generate_post_dominator_mermaid, generate_dominator_mermaid,
    generate_dominance_frontier_mermaid, generate_post_dominance_frontier_mermaid,
    generate_iterated_dominance_frontier_mermaid, generate_immediate_dominator_mermaid,
    generate_immediate_post_dominator_mermaid, tree_statements, frontier_statements,
    add_all_blocks.
  rewrite Hfunc, Hempty. by split_and!.
Qed.

Lemma exports_of_empty_function_witness :
  generate_dominator_mermaid Samples.loop (λ _, Some {| basic_blocks := [] |}) 0
  = "```mermaid" +:+ nl +:+ "graph TD;" +:+ nl +:+ nl +:+ "```".
Proof.
  destruct (exports_of_empty_function Samples.loop (λ _, Some {| basic_blocks := [] |})
              elements 0 {| basic_blocks := [] |} eq_refl eq_refl) as (_ & Hdom & _).
  exact Hdom.
Defined.

(** X16.  Two blocks have the same node name in the exports exactly when they
    start at the same address. *)
Theorem node_names {block : Type} (cfg : Analysis block) (x y : block) :
  BB cfg x = BB cfg y ↔ start cfg x = start cfg y.
Proof.
  unfold BB. split; [|by intros ->].
  intros Heq%(inj (String.app "BB")). unfold hex in Heq.
  by rewrite <-(HexString.to_N_of_N (start cfg x)), <-(HexString.to_N_of_N (start cfg y)),
    Heq.
Qed.

(** * The immediate views and the chain views *)

Lemma PostDominatorsSlice_walk_returns {block : Type} (cfg : Analysis block)
    fuel (g : FlowGraph block) cur b g' :
  PostDominatorsSlice_walk cfg fuel g cur (immediate_post_dominator cfg b) = Some g' →
  ∃ l, chain (immediate_post_dominator cfg) b l ∧ length l ≤ fuel.
Proof.
  revert g cur b. induction fuel as [|fuel IH]; intros g cur b Hrun;
    destruct (immediate_post_dominator cfg b) as [a|] eqn:Hb; simpl in Hrun.
  - done.
  - exists []. split; [by apply chain_end|done].
  - apply IH in Hrun as (l & Hl & Hlen). exists (a :: l).
    split; [by eapply chain_step|simpl; lia].
  - exists []. split; [by apply chain_end|simpl; lia].
Qed.

(** X4.  The immediate-dominator view is the beginning of the dominators view:
    its graph is the first two nodes of the graph the dominators view
    returns.  The immediate-post-dominator view shows the first two
    blocks and the first edge of the post-dominators view. *)
Theorem immediate_views_begin_chain_views {block : Type} (cfg : Analysis block)
    (b : block) (fuel : nat) (g : FlowGraph block) :
  (DominatorsSlice_get_flowgraph cfg fuel (Some b) = Some g →
   ImmediateDominatorSlice_get_flowgraph cfg (Some b) = take 2 g)
  ∧ (PostDominatorsSlice_get_flowgraph cfg fuel (Some b) = Some g →
     lines <$> ImmediatePostDominatorSlice_get_flowgraph cfg (Some b) = take 2 (lines <$> g)
     ∧ graph_edges (ImmediatePostDominatorSlice_get_flowgraph cfg (Some b))
       = take 1 (graph_edges g)).
Proof.
  split.
  - unfold DominatorsSlice_get_flowgraph, ImmediateDominatorSlice_get_flowgraph. simpl.
    intros Hrun.
    destruct (DominatorsSlice_walk_returns _ _ _ _ _ _ Hrun) as (l & Hl & Hlen).
    rewrite (DominatorsSlice_walk_chain cfg fuel _ 0 b l Hl Hlen) in Hrun.
    injection Hrun as <-.
    inversion Hl as [? Hb|? a l' Hb Hl']; subst; rewrite Hb; [done|].
    simpl. by destruct l'.
  - unfold PostDominatorsSlice_get_flowgraph, ImmediatePostDominatorSlice_get_flowgraph.
    simpl. intros Hrun.
    destruct (PostDominatorsSlice_walk_returns _ _ _ _ _ _ Hrun) as (l & Hl & Hlen).
    pose proof (PostDominatorsSlice_walk_chain cfg fuel [] b l Hl Hlen) as Hwalk.
    simpl in Hwalk. rewrite Hwalk in Hrun. injection Hrun as <-.
    inversion Hl as [? Hb|? a l' Hb Hl']; subst; rewrite Hb; [done|].
    simpl. by destruct l'.
Qed.

Lemma immediate_views_begin_chain_views_witness :
  ImmediateDominatorSlice_get_flowgraph Samples.loop (Some 3)
  = [ {| lines := Disassembly 3; outgoing := [] |};
      {| lines := Disassembly 1; outgoing := [(UnconditionalBranch, 0)] |} ].
Proof.
  destruct (immediate_views_begin_chain_views Samples.loop 3 2
              [ {| lines := Disassembly 3; outgoing := [] |};
                {| lines := Disassembly 1; outgoing := [(UnconditionalBranch, 0)] |};
                {| lines := Disassembly 0; outgoing := [(UnconditionalBranch, 1)] |} ])
    as [Hdom _].
  rewrite Hdom; reflexivity.
Defined.

(** * More on the full post-dominator tree and on the frontier views *)

(** X7.  When the post-dominator tree is a well-formed forest over the
    function's blocks, the full post-dominator-tree view (given a call
    depth of the number of blocks) returns a graph rooted at the first
    exit block in which every node shows a block, no block is shown
    twice, and the blocks shown are those reachable from the root through
    [post_dominator_tree_children]. *)
Theorem FullPostDominatorTreeSlice_visits_once {block : Type} `{Countable block}
    (cfg : Analysis block) (function : Function block) (root : block)
    (others : list block) (fuel : nat) :
  filter (λ b, outgoing_edges cfg b = []) (basic_blocks function) = root :: others →
  well_formed_forest (post_dominator_tree_children cfg) (immediate_post_dominator cfg)
    (basic_blocks function) →
  length (basic_blocks function) ≤ fuel →
  ∃ g, FullPostDominatorTreeSlice_get_flowgraph cfg fuel (Some function) = Some g
       ∧ head (lines <$> g) = Some (Disassembly root)
       ∧ lines <$> g = Disassembly <$> graph_blocks g
       ∧ NoDup (graph_blocks g)
       ∧ ∀ x, x ∈ graph_blocks g ↔ reachable (post_dominator_tree_children cfg) root x.
Proof.
  intros Hexits Hwf Hfuel. unfold FullPostDominatorTreeSlice_get_flowgraph.
  rewrite Hexits. simpl.
  destruct (filter_first _ _ _ _ Hexits) as (before & after & Hblocks & _ & _).
  destruct (add_children_returns (post_dominator_tree_children cfg) (basic_blocks function)
              fuel [] [ {| lines := Disassembly root; outgoing := [] |} ] root 0)
    as [g Hrun].
  - apply (forest_tree _ _ _ Hwf).
  - apply NoDup_singleton.
  - intros a ->%list_elem_of_singleton. rewrite Hblocks.
    apply elem_of_app. right. apply list_elem_of_here.
  - by intros a ?%elem_of_nil.
  - simpl. lia.
  - exists g. split; [done|].
    destruct (full_tree_blocks _ (immediate_post_dominator cfg) (basic_blocks function)
                _ _ _ Hrun) as (Hhead & Hlines & Hreach & Hnd).
    split_and!; [done..|by apply Hnd|done].
Qed.

Lemma loop_post_children p c :
  c ∈ post_dominator_tree_children Samples.loop p →
  (p = 3 ∧ c = 1) ∨ (p = 1 ∧ (c = 0 ∨ c = 2)).
Proof.
  destruct p as [|[|[|[|p]]]]; simpl; intros Hc;
    repeat (apply elem_of_cons in Hc as [->|Hc]); try (by apply elem_of_nil in Hc); auto.
Qed.

Lemma loop_post_forest :
  well_formed_forest (post_dominator_tree_children Samples.loop)
    (immediate_post_dominator Samples.loop) (basic_blocks Samples.loop_function).
Proof.
  assert (Hrank : ∀ p c, tc (child_of (post_dominator_tree_children Samples.loop)) p c →
                         (p = 3 ∧ c ≠ 3) ∨ (p = 1 ∧ (c = 0 ∨ c = 2))).
  { induction 1 as [p c Hc|p c z Hc _ IH]; apply loop_post_children in Hc; lia. }
  split; [split|..].
  - intros p c _ Hc. apply loop_post_children in Hc. simpl.
    rewrite !elem_of_cons. lia.
  - intros b Hb%Hrank. lia.
  - intros p c Hc.
    by destruct (loop_post_children p c Hc) as [[-> ->]|[-> [->| ->]]].
  - intros [|[|[|[|p]]]]; simpl; repeat constructor;
      rewrite ?elem_of_cons, ?elem_of_nil; lia.
Qed.

Lemma FullPostDominatorTreeSlice_visits_once_witness :
  ∃ g, FullPostDominatorTreeSlice_get_flowgraph Samples.loop 4 (Some Samples.loop_function)
       = Some g
       ∧ head (lines <$> g) = Some (Disassembly 3)
       ∧ NoDup (graph_blocks g).
Proof.
  destruct (FullPostDominatorTreeSlice_visits_once Samples.loop Samples.loop_function
              3 [] 4 eq_refl loop_post_forest)
    as (g & Hrun & Hhead & _ & Hnd & _).
  - simpl. lia.
  - exists g. exact (conj Hrun (conj Hhead Hnd)).
Defined.

(** X11.  Every block the dominance-frontier view shows is the current block
    or a member of the frontier the worklist loop returns for it: the
    iterated view shows at least the blocks of the one-hop view. *)
Theorem frontier_view_within_iterated {block : Type} `{Countable block}
    (cfg : Analysis block) (fuel : nat) (cb : block) (F : gset block) :
  idf_worklist cfg fuel ∅ [cb] = Some F →
  ∀ x, x ∈ graph_blocks (DominanceFrontierSlice_get_flowgraph cfg (Some cb)) →
       x = cb ∨ x ∈ F.
Proof.
  intros Hrun x. unfold DominanceFrontierSlice_get_flowgraph.
  destruct (one_hop_view_shape (dominance_frontier cfg) cb) as [Hlines _].
  rewrite (graph_blocks_of_lines _ _ Hlines).
  intros [->|Hx]%elem_of_cons; [by left|]. right.
  eapply idf_worklist_reaches; [done| |by apply tc_once].
  left. apply list_elem_of_here.
Qed.

Lemma frontier_view_within_iterated_witness :
  graph_blocks (DominanceFrontierSlice_get_flowgraph Samples.loop (Some 2)) = [2; 1]
  ∧ (1 = 2 ∨ 1 ∈ ({[1]} : gset nat)).
Proof.
  split; [reflexivity|].
  apply (frontier_view_within_iterated Samples.loop 2 2 {[1]}).
  - vm_compute. reflexivity.
  - apply list_elem_of_further, list_elem_of_here.
Defined.
